(** * coax: PPO-clip policy objective and n-step Q-learning TD update

    A shallow embedding of [coax/policy_objectives/_ppo_clip.py] and
    [coax/td_learning/_qlearning.py].

    Numeric model.  A JAX array of rank 1 is a [list R] and an array of
    rank 2 is a list of rows.  In the main development array entries are
    real numbers, so rounding, infinities and NaN are outside it; module
    [Float32] reads the arithmetic of [target] and [objective_func] over
    IEEE binary32, for the statements that depend on them.  Elementwise
    operations follow NumPy broadcasting on rank-1 arrays and raise on
    incompatible shapes.

    Collaborators that live outside the two modules (the function
    approximators, haiku's key sequence, the gradient engine, the
    regularizer) are section variables or record fields. *)

From Stdlib Require Import Reals Lra ZArith Floats.SpecFloat.
From stdpp Require Import base list strings gmap.

Local Open Scope R_scope.

(** ** Python exceptions and the error monad *)

Inductive exn : Type :=
| NotImplementedError (msg : string)
| AssertionError
| ValueError          (* reduction over an axis of size zero *)
| BroadcastError.     (* incompatible shapes in an elementwise operation *)

Definition M (A : Type) : Type := exn + A.

Definition raise {A : Type} (e : exn) : M A := inl e.

#[global] Instance M_ret : MRet M := fun _ x => inr x.
#[global] Instance M_bind : MBind M := fun _ _ f m =>
  match m with
  | inl e => inl e
  | inr x => f x
  end.

Definition assert (b : bool) : M unit :=
  if b then mret tt else raise AssertionError.

(** ** Arrays *)

Abbreviation vec := (list R).
Abbreviation matrix := (list (list R)).

(** [x.ndim]: the rank is carried by the type of the array. *)
Class NDArray (A : Type) := ndim : A → nat.
#[global] Instance scalar_ndim : NDArray R := fun _ => 0%nat.
#[global] Instance vec_ndim : NDArray vec := fun _ => 1%nat.
#[global] Instance matrix_ndim : NDArray matrix := fun _ => 2%nat.

(** Elementwise binary operation on rank-1 arrays with NumPy broadcasting:
    equal lengths are paired off, a length-1 operand is stretched, anything
    else is an error. *)
Definition broadcast (f : R → R → R) (xs ys : vec) : M vec :=
  if decide (length xs = length ys) then mret (zip_with f xs ys)
  else match xs, ys with
       | [x], _ => mret (map (f x) ys)
       | _, [y] => mret (map (λ x, f x y) xs)
       | _, _ => raise BroadcastError
       end.

Definition jnp_add : vec → vec → M vec := broadcast Rplus.
Definition jnp_sub : vec → vec → M vec := broadcast Rminus.
Definition jnp_mul : vec → vec → M vec := broadcast Rmult.
Definition jnp_minimum : vec → vec → M vec := broadcast Rmin.

Definition jnp_exp (xs : vec) : vec := map exp xs.

(** [jnp.clip(a, a_min, a_max)] is [minimum(a_max, maximum(a_min, a))]. *)
Definition clip (a a_min a_max : R) : R := Rmin a_max (Rmax a_min a).
Definition jnp_clip (xs : vec) (a_min a_max : R) : vec :=
  map (λ a, clip a a_min a_max) xs.

Definition jnp_sum (xs : vec) : R := foldr Rplus 0 xs.

(** [jnp.mean] over all entries.  On an array of size zero JAX returns nan,
    which has no counterpart here: statements that give a mean a particular
    value assume a non-empty array. *)
Definition jnp_mean (xs : vec) : R := jnp_sum xs / INR (length xs).

(** [jnp.max] of one row; a row of size zero has no maximum. *)
Definition row_max (row : vec) : M R :=
  match row with
  | [] => raise ValueError
  | x :: xs => mret (foldl Rmax x xs)
  end.

(** [jnp.max(Q, axis=1)]. *)
Fixpoint jnp_max_axis1 (rows : matrix) : M vec :=
  match rows with
  | [] => mret []
  | row :: rows' =>
      m ← row_max row;
      ms ← jnp_max_axis1 rows';
      mret (m :: ms)
  end.

(** ** Transition batches

    The eight array fields of [coax.reward_tracing.TransitionBatch], in
    tuple order.  States and actions are opaque to both update rules. *)
Module TransitionBatch.
Record t (Obs Act : Type) : Type := mk {
  S : Obs;
  A : Act;
  logP : vec;
  Rn : vec;
  In : vec;
  S_next : Obs;
  A_next : Act;
  logP_next : vec
}.
Arguments mk {Obs Act}.
Arguments S {Obs Act}.
Arguments A {Obs Act}.
Arguments logP {Obs Act}.
Arguments Rn {Obs Act}.
Arguments In {Obs Act}.
Arguments S_next {Obs Act}.
Arguments A_next {Obs Act}.
Arguments logP_next {Obs Act}.
End TransitionBatch.

(** ** Python dictionaries as heap objects

    A dict holding floats is a [gmap string R]; dict objects live in a store
    and are handed around by reference, so that two names for one dict see
    each other's writes. *)
Abbreviation dict := (gmap string R).
Abbreviation loc := positive.
Abbreviation heap := (gmap loc dict).

(** A dict display ([{}], [{'beta': ...}]) creates a new object. *)
Definition alloc (d : dict) (h : heap) : loc * heap :=
  let l := fresh (dom h) in (l, <[l := d]> h).

(** [d[k] = v] on the object behind reference [l]. *)
Definition setitem (l : loc) (k : string) (v : R) (h : heap) : heap :=
  alter (<[k := v]>) l h.

(** [metrics.update(other)]: entries of [other] win. *)
Definition dict_update (metrics other : dict) : dict := other ∪ metrics.

(** How an object answers a read of its attribute [hyperparams]. *)
Inductive attribute : Type :=
| NoAttribute                       (* the attribute does not exist *)
| InstanceAttribute (l : loc)       (* a dict stored on the object *)
| PropertyAttribute (value : dict). (* a property building a new dict per read *)

(** [getattr(obj, 'hyperparams', default)] *)
Definition getattr_hyperparams (a : attribute) (default : loc) (h : heap)
  : loc * heap :=
  match a with
  | NoAttribute => (default, h)
  | InstanceAttribute l => (l, h)
  | PropertyAttribute value => alloc value h
  end.

(** ** Keys drawn from a haiku key sequence

    [hk.PRNGSequence(rng)] and [next(rngs)] are haiku's: a draw returns a key
    and leaves the sequence advanced.  The first and the second key drawn
    from a new sequence are named for the statements below. *)
Section KeySequence.

Context {Key PRNGSequence : Type}.
Variable hk_PRNGSequence : Key → PRNGSequence.
Variable next : PRNGSequence → Key * PRNGSequence.

Definition first_key (rng : Key) : Key := (next (hk_PRNGSequence rng)).1.
Definition second_key (rng : Key) : Key :=
  (next (next (hk_PRNGSequence rng)).2).1.

End KeySequence.

(** ** The gradient engine and the gradient diagnostics *)
Section GradientEngine.

Context {Params Grads : Type}.

(** [jax.grad] of a scalar function of the parameters. *)
Variable jax_grad : (Params → R) → Params → Grads.

(** [jax.grad(f, has_aux=True)]: the gradient of the first component with
    respect to the parameters, next to the auxiliary output of the same
    evaluation; an exception raised by [f] propagates. *)
Definition jax_grad_has_aux {Aux : Type} (f : Params → M (R * Aux))
    (params : Params) : M (Grads * Aux) :=
  '(_, aux) ← f params;
  mret (jax_grad (λ p, match f p with inr (l, _) => l | inl _ => 0 end) params,
        aux).

(** Statistic names and values computed by [coax.utils] on a gradient. *)
Variable magnitude_quantiles : Grads → list (string * R).

(** Modelled from the spec: [get_magnitude_quantiles] (in [coax.utils])
    returns quantile statistics of the gradient magnitudes, every key
    starting with [key_prefix]. *)
Definition get_magnitude_quantiles (grads : Grads) (key_prefix : string)
  : dict :=
  list_to_map ((λ kv, (key_prefix +:+ kv.1, kv.2)) <$> magnitude_quantiles grads).

End GradientEngine.

(** * PPO-clip policy objective ([_ppo_clip.py]) *)
Module PPOClip.
Section PPOClip.

(** Opaque data of the collaborators. *)
Context {Params State Key PRNGSequence Obs Act DistParams Xa Grads : Type}.

(** [hk.PRNGSequence(rng)] and [next(rngs)]: a draw returns a key and
    leaves the sequence advanced. *)
Variable hk_PRNGSequence : Key → PRNGSequence.
Variable next : PRNGSequence → Key * PRNGSequence.

(** The gradient engine: [jax.grad] of a scalar function of the
    parameters. *)
Variable jax_grad : (Params → R) → Params → Grads.

(** Statistic names and values computed by [coax.utils] on a gradient. *)
Variable magnitude_quantiles : Grads → list (string * R).

(** The policy [pi]: its forward pass, its action preprocessor and the
    log-probability of its distribution family. *)
Record Policy : Type := {
  apply_func : Params → State → Key → Obs → bool → DistParams * State;
  action_preprocessor_func : Params → Key → Act → Xa;
  proba_dist_log_proba : DistParams → Xa → vec
}.

(** A policy regularizer: a per-transition penalty, its metrics, and the
    way it exposes [hyperparams]. *)
Record PolicyRegularizer : Type := {
  reg_apply_func : DistParams → dict → vec;
  reg_metrics_func : DistParams → dict → dict;
  reg_hyperparams : attribute
}.

Record PPOClip : Type := {
  pi : Policy;
  regularizer : option PolicyRegularizer;
  epsilon : R
}.

Definition REQUIRES_PROPENSITIES : bool := true.

(** [self.__class__.__name__] *)
Definition __name__ : string := "PPOClip".

(** Modelled from the spec: [PolicyObjective.__init__] (in [_base.py]) keeps
    the policy and the optional regularizer on the object.  The subclass
    adds [epsilon], 0.2 unless given. *)
Definition __init__ (pi : Policy) (regularizer : option PolicyRegularizer)
    (epsilon : option R) : PPOClip :=
  {| pi := pi; regularizer := regularizer; epsilon := default 0.2 epsilon |}.

(** The attribute read by [getattr(self.regularizer, 'hyperparams', {})];
    [None] has no such attribute. *)
Definition regularizer_attribute (self : PPOClip) : attribute :=
  match regularizer self with
  | None => NoAttribute
  | Some r => reg_hyperparams r
  end.

(** The property [hyperparams]. *)
Definition hyperparams (self : PPOClip) (h : heap) : loc * heap :=
  let '(new_dict, h) := alloc ∅ h in
  let '(hparams, h) :=
    getattr_hyperparams (regularizer_attribute self) new_dict h in
  let h := setitem hparams "epsilon" (epsilon self) h in
  (hparams, h).

(** A read of [regularizer.hyperparams] by anyone else. *)
Definition regularizer_hyperparams (r : PolicyRegularizer) (h : heap)
  : option (loc * heap) :=
  match reg_hyperparams r with
  | NoAttribute => None
  | InstanceAttribute l => Some (l, h)
  | PropertyAttribute value => Some (alloc value h)
  end.

Definition objective_func (self : PPOClip) (params : Params) (state : State)
    (rng : Key) (transition_batch : TransitionBatch.t Obs Act)
    (Adv : vec) (epsilon : R) : M (vec * (DistParams * vec * State)) :=
  let rngs := hk_PRNGSequence rng in
  (* get distribution params from function approximator *)
  let S := TransitionBatch.S transition_batch in
  let A := TransitionBatch.A transition_batch in
  let logP := TransitionBatch.logP transition_batch in
  let '(k, rngs) := next rngs in
  let '(dist_params, state_new) := apply_func (pi self) params state k S true in
  (* compute ppo-clip objective *)
  let '(k, rngs) := next rngs in
  let X_a := action_preprocessor_func (pi self) params k A in
  let log_pi := proba_dist_log_proba (pi self) dist_params X_a in
  d ← jnp_sub log_pi logP;
  let ratio := jnp_exp d in
  let ratio_clip := jnp_clip ratio (1 - epsilon) (1 + epsilon) in
  bare ← jnp_mul Adv ratio;
  clipped ← jnp_mul Adv ratio_clip;
  objective ← jnp_minimum bare clipped;
  (* some consistency checks *)
  assert (bool_decide (ndim Adv = 1%nat));;
  assert (bool_decide (ndim ratio = 1%nat));;
  assert (bool_decide (ndim ratio_clip = 1%nat));;
  assert (bool_decide (ndim objective = 1%nat));;
  (* also pass auxiliary data to avoid multiple forward passes *)
  mret (objective, (dist_params, log_pi, state_new)).

Definition loss_func (self : PPOClip) (params : Params) (state : State)
    (rng : Key) (transition_batch : TransitionBatch.t Obs Act)
    (Adv : vec) (epsilon : R) (reg_hparams : dict)
  : M (R * (R * R * DistParams * vec * State)) :=
  '(objective, (dist_params, log_pi, state_new)) ←
    objective_func self params state rng transition_batch Adv epsilon;
  (* flip sign to turn objective into loss *)
  let loss_bare := - jnp_mean objective in
  let loss := loss_bare in
  (* add regularization term *)
  let loss :=
    match regularizer self with
    | Some r => loss + jnp_mean (reg_apply_func r dist_params reg_hparams)
    | None => loss
    end in
  mret (loss, (loss, loss_bare, dist_params, log_pi, state_new)).

Definition grads_and_metrics_func (self : PPOClip) (params : Params)
    (state : State) (rng : Key) (transition_batch : TransitionBatch.t Obs Act)
    (Adv : vec) (epsilon : R) (reg_hparams : dict)
  : M (Grads * State * dict) :=
  '(grads, (loss, loss_bare, dist_params, log_pi, state_new)) ←
    jax_grad_has_aux jax_grad
      (λ params, loss_func self params state rng transition_batch Adv epsilon
                   reg_hparams) params;
  let name := __name__ in
  let metrics : dict :=
    <[name +:+ "/loss_bare" := loss_bare]> (<[name +:+ "/loss" := loss]> ∅) in
  (* add sampled KL-divergence of the current policy relative to the
     behavior policy *)
  let logP := TransitionBatch.logP transition_batch in
  diff ← jnp_sub logP log_pi;
  kl ← jnp_mul (jnp_exp logP) diff;
  let metrics := <[name +:+ "/kl_div_old" := jnp_mean kl]> metrics in
  (* add some diagnostics of the gradients *)
  let metrics :=
    dict_update metrics
      (get_magnitude_quantiles magnitude_quantiles grads (name +:+ "/grads_")) in
  (* add regularization metrics *)
  let metrics :=
    match regularizer self with
    | Some r => dict_update metrics (reg_metrics_func r dist_params reg_hparams)
    | None => metrics
    end in
  mret (grads, state_new, metrics).

(** The forward pass made by [objective_func], and the log-probabilities
    [log_pi] it computes for the recorded actions. *)
Definition forward (self : PPOClip) (params : Params) (state : State)
    (rng : Key) (transition_batch : TransitionBatch.t Obs Act)
  : DistParams * State :=
  apply_func (pi self) params state (first_key hk_PRNGSequence next rng)
    (TransitionBatch.S transition_batch) true.

Definition current_log_pi (self : PPOClip) (params : Params) (state : State)
    (rng : Key) (transition_batch : TransitionBatch.t Obs Act) : vec :=
  proba_dist_log_proba (pi self)
    (forward self params state rng transition_batch).1
    (action_preprocessor_func (pi self) params
       (second_key hk_PRNGSequence next rng)
       (TransitionBatch.A transition_batch)).

End PPOClip.
End PPOClip.

(** * n-step Q-learning ([_qlearning.py]) *)
Module QLearning.
Section QLearning.

Context {Params State Key PRNGSequence Obs Act Grads : Type}.

Variable hk_PRNGSequence : Key → PRNGSequence.
Variable next : PRNGSequence → Key * PRNGSequence.
Variable jax_grad : (Params → R) → Params → Grads.
Variable magnitude_quantiles : Grads → list (string * R).

(** [coax.value_losses.huber], the default regression loss. *)
Variable huber : vec → vec → R.

(** A q-function: [apply_func_type1] gives q(s,a) for the given actions,
    [apply_func_type2] gives one value per discrete action. *)
Record Q : Type := {
  action_space_is_discrete : bool;
  apply_func_type1 : Params → State → Key → Obs → Act → bool → vec * State;
  apply_func_type2 : Params → State → Key → Obs → bool → matrix * State
}.

(** The update rule.  A value transform is a pair of scalar functions
    [(f, f_inv)]; called on an array, each acts entry by entry. *)
Record QLearning : Type := {
  q : Q;
  q_targ : Q;
  loss_function : vec → vec → R;
  value_transform : (R → R) * (R → R)
}.

Definition __name__ : string := "QLearning".

(** Modelled from the spec: [BaseTD.__init__] (in [_base.py]) keeps its
    arguments on the object; [q_targ] left unspecified is [q], the loss
    defaults to huber and the value transform to the identity pair. *)
Definition BaseTD__init__ (q : Q) (q_targ : option Q)
    (loss_function : option (vec → vec → R))
    (value_transform : option ((R → R) * (R → R))) : QLearning :=
  {| q := q;
     q_targ := default q q_targ;
     loss_function := default huber loss_function;
     value_transform := default (λ x, x, λ x, x) value_transform |}.

(** The constructor.  [_init_funcs] only binds the closures below to the
    object. *)
Definition __init__ (q : Q) (q_targ : option Q)
    (loss_function : option (vec → vec → R))
    (value_transform : option ((R → R) * (R → R))) : M QLearning :=
  if negb (action_space_is_discrete q) then
    raise (NotImplementedError
      ("QLearning class is only implemented for discrete actions spaces; you can use "
       +:+ "QLearningMode non-discrete action spaces"))
  else
    mret (BaseTD__init__ q q_targ loss_function value_transform).

Definition target (self : QLearning) (params : Params) (state : State)
    (rng : Key) (Rn In : vec) (S_next : Obs) : M vec :=
  let '(f, f_inv) := value_transform self in
  let '(Q_s_next, _) :=
    apply_func_type2 (q_targ self) params state rng S_next false in
  assert (bool_decide (ndim Q_s_next = 2%nat));;
  Q_sa_next ← jnp_max_axis1 Q_s_next;
  bootstrap ← jnp_mul In (map f_inv Q_sa_next);
  G ← jnp_add Rn bootstrap;
  mret (map f G).

Definition loss_func (self : QLearning) (params target_params : Params)
    (state : State) (rng : Key) (transition_batch : TransitionBatch.t Obs Act)
  : M (R * (R * vec * vec * Obs * Act * State)) :=
  let rngs := hk_PRNGSequence rng in
  let S := TransitionBatch.S transition_batch in
  let A := TransitionBatch.A transition_batch in
  let Rn := TransitionBatch.Rn transition_batch in
  let In := TransitionBatch.In transition_batch in
  let S_next := TransitionBatch.S_next transition_batch in
  let '(k, rngs) := next rngs in
  G ← target self target_params state k Rn In S_next;
  let '(k, rngs) := next rngs in
  let '(Q, state_new) := apply_func_type1 (q self) params state k S A true in
  let loss := loss_function self G Q in
  mret (loss, (loss, G, Q, S, A, state_new)).

Definition grads_and_metrics_func (self : QLearning)
    (params target_params : Params) (state : State) (rng : Key)
    (transition_batch : TransitionBatch.t Obs Act)
  : M (Grads * State * dict) :=
  let rngs := hk_PRNGSequence rng in
  let '(k, rngs) := next rngs in
  '(grads, (loss, G, Q, S', A', state_new)) ←
    jax_grad_has_aux jax_grad
      (λ params, loss_func self params target_params state k transition_batch)
      params;
  (* target-network estimate *)
  let '(k, rngs) := next rngs in
  let '(Q_targ, _) :=
    apply_func_type1 (q_targ self) target_params state k S' A' false in
  (* residuals: estimate - better_estimate *)
  err ← jnp_sub Q G;
  err_targ ← jnp_sub Q_targ Q;
  let name := __name__ in
  let square := map (λ x, x * x) in
  let metrics : dict :=
    <[name +:+ "/rmse_targ" := sqrt (jnp_mean (square err_targ))]>
    (<[name +:+ "/bias_targ" := jnp_mean err_targ]>
    (<[name +:+ "/rmse" := sqrt (jnp_mean (square err))]>
    (<[name +:+ "/bias" := jnp_mean err]>
    (<[name +:+ "/loss" := loss]> ∅)))) in
  (* add some diagnostics of the gradients *)
  let metrics :=
    dict_update metrics
      (get_magnitude_quantiles magnitude_quantiles grads (name +:+ "/grads_")) in
  mret (grads, state_new, metrics).

Definition td_error_func (self : QLearning) (params target_params : Params)
    (state : State) (rng : Key) (transition_batch : TransitionBatch.t Obs Act)
  : M vec :=
  let rngs := hk_PRNGSequence rng in
  let S := TransitionBatch.S transition_batch in
  let A := TransitionBatch.A transition_batch in
  let Rn := TransitionBatch.Rn transition_batch in
  let In := TransitionBatch.In transition_batch in
  let S_next := TransitionBatch.S_next transition_batch in
  let '(k, rngs) := next rngs in
  G ← target self target_params state k Rn In S_next;
  let '(k, rngs) := next rngs in
  let '(Q, _) := apply_func_type1 (q self) params state k S A false in
  jnp_sub G Q.

End QLearning.
End QLearning.

(** * Reference formulas

    The quantities the specification names, written entry by entry. *)

(** Importance ratio [ρ = exp(log_pi − logP)]. *)
Definition ratio_spec (log_pi logP : R) : R := exp (log_pi - logP).

(** Per-transition PPO-clip objective [min(Adv·ρ, Adv·clip(ρ, 1−ε, 1+ε))]. *)
Definition per_transition_objective (epsilon Adv rho : R) : R :=
  Rmin (Adv * rho) (Adv * clip rho (1 - epsilon) (1 + epsilon)).

(** The objective of a whole batch. *)
Definition batch_objective_spec (epsilon : R) (Adv log_pi logP : vec) : vec :=
  zip_with (per_transition_objective epsilon) Adv (zip_with ratio_spec log_pi logP).

(** Per-transition term of the sampled KL divergence. *)
Definition kl_term_spec (logP log_pi : R) : R := exp logP * (logP - log_pi).

(** [m] is the largest entry of [row]. *)
Definition is_max (row : vec) (m : R) : Prop :=
  m ∈ row ∧ Forall (λ x, x <= m) row.

(** * Concrete collaborators

    Small instances of the interfaces, used to run the definitions: keys are
    counters, a policy whose distribution parameters are the
    log-probabilities read off the states, and a q-function that reads its
    per-action values off the states and adds 1 in training mode. *)
Module Scenario.

Definition hk_PRNGSequence (rng : nat) : nat := rng.
Definition next (rngs : nat) : nat * nat := (rngs, S rngs).

Definition jax_grad (f : unit → R) (params : unit) : unit := tt.
Definition magnitude_quantiles (grads : unit) : list (string * R) := [].
Definition huber (y_true y_pred : vec) : R := 0.

Definition pi : @PPOClip.Policy unit unit nat vec unit vec unit :=
  {| PPOClip.apply_func := λ _ state _ S _, (S, state);
     PPOClip.action_preprocessor_func := λ _ _ A, A;
     PPOClip.proba_dist_log_proba := λ dist_params _, dist_params |}.

(** A regularizer with zero penalty that keeps its hyperparameters in a
    dict stored on the object. *)
Definition zero_regularizer (l : loc) : @PPOClip.PolicyRegularizer vec :=
  {| PPOClip.reg_apply_func := λ dist_params _, map (λ _, 0) dist_params;
     PPOClip.reg_metrics_func := λ _ _, ∅;
     PPOClip.reg_hyperparams := InstanceAttribute l |}.

Definition ppo : PPOClip.PPOClip := PPOClip.__init__ pi None None.
Definition ppo_regularized : PPOClip.PPOClip :=
  PPOClip.__init__ pi (Some (zero_regularizer 1%positive)) None.

(** Scenario A: ratios [1.5; 0.5] against uniform recorded propensities. *)
Definition batch_A : TransitionBatch.t vec unit :=
  TransitionBatch.mk [ln 1.5; ln 0.5] tt [0; 0] [0; 0] [0; 0] [] tt [0; 0].
Definition Adv_A : vec := [1; -1].

(** A batch on which the current policy agrees with the behavior policy. *)
Definition batch_on_policy : TransitionBatch.t vec unit :=
  TransitionBatch.mk [-1; -2] tt [-1; -2] [0; 0] [0; 0] [] tt [0; 0].

Definition q_discrete : @QLearning.Q unit unit nat matrix unit :=
  {| QLearning.action_space_is_discrete := true;
     QLearning.apply_func_type1 := λ _ state _ S _ is_training,
       (map (λ row, hd 0 row + (if is_training : bool then 1 else 0)) S, state);
     QLearning.apply_func_type2 := λ _ state _ S _, (S, state) |}.

Definition q_continuous : @QLearning.Q unit unit nat matrix unit :=
  {| QLearning.action_space_is_discrete := false;
     QLearning.apply_func_type1 := QLearning.apply_func_type1 q_discrete;
     QLearning.apply_func_type2 := QLearning.apply_func_type2 q_discrete |}.

Definition qlearning : QLearning.QLearning :=
  QLearning.BaseTD__init__ huber q_discrete None None None.

(** Scenario B: one non-terminal transition, three actions. *)
Definition batch_B : TransitionBatch.t matrix unit :=
  TransitionBatch.mk [[0; 0; 0]] tt [0] [1] [0.9] [[1; 5; 2]] tt [0].

(** The same transition ending the episode. *)
Definition batch_terminal : TransitionBatch.t matrix unit :=
  TransitionBatch.mk [[0; 0; 0]] tt [0] [1] [0] [[1; 5; 2]] tt [0].

End Scenario.

(** * Further concrete collaborators *)
Module ScenarioMore.

(** A regularizer whose [hyperparams] is a property returning
    [{'beta': 0.01}] and whose metrics reuse a key of the objective. *)
Definition property_regularizer : @PPOClip.PolicyRegularizer vec :=
  {| PPOClip.reg_apply_func := λ dist_params _, map (λ _, 0.5) dist_params;
     PPOClip.reg_metrics_func := λ _ _, {[ "PPOClip/loss" := 7 ]};
     PPOClip.reg_hyperparams := PropertyAttribute {[ "beta" := 0.01 ]} |}.

Definition ppo_property : PPOClip.PPOClip :=
  PPOClip.__init__ Scenario.pi (Some property_regularizer) (Some 0.1).

(** A stored mapping that already has an entry ['epsilon']. *)
Definition stored_hyperparams : dict := <[ "epsilon" := 9 ]> {[ "beta" := 0.01 ]}.

(** A target network asked about a state without actions. *)
Definition batch_no_actions : TransitionBatch.t matrix unit :=
  TransitionBatch.mk [[0]; [0]] tt [0; 0] [1; 1] [0; 0] [[1; 2]; []] tt [0; 0].

(** Three transitions with only two discounts. *)
Definition batch_short_discounts : TransitionBatch.t matrix unit :=
  TransitionBatch.mk [[0]; [0]; [0]] tt [0; 0; 0] [1; 1; 1] [0.9; 0.9]
    [[1; 2]; [3; 4]; [5; 6]] tt [0; 0; 0].

(** An update rule with the value transform [f x = 2 x], [f_inv x = x / 2]. *)
Definition qlearning_scaled : QLearning.QLearning :=
  QLearning.BaseTD__init__ Scenario.huber Scenario.q_discrete None None
    (Some (λ x, 2 * x, λ x, x / 2)).

(** A q-function that ignores the training flag, and its update rule. *)
Definition q_plain : @QLearning.Q unit unit nat matrix unit :=
  {| QLearning.action_space_is_discrete := true;
     QLearning.apply_func_type1 := λ _ state _ S _ _, (map (hd 0) S, state);
     QLearning.apply_func_type2 := λ _ state _ S _, (S, state) |}.

Definition qlearning_plain : QLearning.QLearning :=
  QLearning.BaseTD__init__ Scenario.huber q_plain None None None.

End ScenarioMore.

(** * The arithmetic of the two update rules over IEEE binary32

    JAX arrays hold binary32 numbers by default.  The definitions above read
    the entries as reals; where a statement depends on rounding, infinities
    or NaN, the same source lines are read here over binary32, with the
    Standard Library's executable specification of IEEE arithmetic
    (round to nearest, ties to even). *)
Module Float32.

Abbreviation float32 := spec_float.

Definition prec : Z := 24.
Definition emax : Z := 128.

Definition of_Z (z : Z) : float32 := binary_normalize prec emax z 0 false.
Definition add : float32 → float32 → float32 := SFadd prec emax.
Definition sub : float32 → float32 → float32 := SFsub prec emax.
Definition mul : float32 → float32 → float32 := SFmul prec emax.
Definition div : float32 → float32 → float32 := SFdiv prec emax.
Definition ltb : float32 → float32 → bool := SFltb.
Definition leb : float32 → float32 → bool := SFleb.

Definition nan : float32 := S754_nan.
Definition infinity : float32 := S754_infinity false.

Definition is_nan (x : float32) : bool :=
  match x with S754_nan => true | _ => false end.
Definition is_zero (x : float32) : bool :=
  match x with S754_zero _ => true | _ => false end.
(** Neither an infinity nor NaN. *)
Definition is_finite (x : float32) : bool :=
  match x with S754_zero _ | S754_finite _ _ _ => true | _ => false end.

(** [jnp.maximum] and [jnp.minimum] on one entry: NaN when an operand is
    NaN, else the larger (smaller) operand. *)
Definition maximum (x y : float32) : float32 :=
  if is_nan x || is_nan y then nan else if ltb x y then y else x.
Definition minimum (x y : float32) : float32 :=
  if is_nan x || is_nan y then nan else if ltb y x then y else x.

(** [jnp.clip(a, a_min, a_max)] is [minimum(a_max, maximum(a_min, a))]. *)
Definition clip (a a_min a_max : float32) : float32 :=
  minimum a_max (maximum a_min a).

(** Elementwise operations on rank-1 arrays, with the broadcasting of
    [broadcast] above. *)
Definition broadcast (f : float32 → float32 → float32) (xs ys : list float32)
  : M (list float32) :=
  if decide (length xs = length ys) then mret (zip_with f xs ys)
  else match xs, ys with
       | [x], _ => mret (map (f x) ys)
       | _, [y] => mret (map (λ x, f x y) xs)
       | _, _ => raise BroadcastError
       end.

Definition jnp_add := broadcast add.
Definition jnp_sub := broadcast sub.
Definition jnp_mul := broadcast mul.
Definition jnp_minimum := broadcast minimum.
Definition jnp_clip (xs : list float32) (a_min a_max : float32) : list float32 :=
  map (λ a, clip a a_min a_max) xs.

(** [jnp.max(Q, axis=1)]; it propagates NaN. *)
Definition row_max (row : list float32) : M float32 :=
  match row with
  | [] => raise ValueError
  | x :: xs => mret (foldl maximum x xs)
  end.

Fixpoint jnp_max_axis1 (rows : list (list float32)) : M (list float32) :=
  match rows with
  | [] => mret []
  | row :: rows' =>
      m ← row_max row;
      ms ← jnp_max_axis1 rows';
      mret (m :: ms)
  end.

Section QLearning.

Context {Params State Key Obs Act : Type}.

Record Q : Type := {
  action_space_is_discrete : bool;
  apply_func_type1 :
    Params → State → Key → Obs → Act → bool → list float32 * State;
  apply_func_type2 :
    Params → State → Key → Obs → bool → list (list float32) * State
}.

Record QLearning : Type := {
  q : Q;
  q_targ : Q;
  loss_function : list float32 → list float32 → float32;
  value_transform : (float32 → float32) * (float32 → float32)
}.

(** [target] of [_init_funcs], lines 99-104; the rank assertion holds by
    the type of [Q_s_next]. *)
Definition target (self : QLearning) (params : Params) (state : State)
    (rng : Key) (Rn In : list float32) (S_next : Obs) : M (list float32) :=
  let '(f, f_inv) := value_transform self in
  let '(Q_s_next, _) :=
    apply_func_type2 (q_targ self) params state rng S_next false in
  Q_sa_next ← jnp_max_axis1 Q_s_next;
  bootstrap ← jnp_mul In (map f_inv Q_sa_next);
  G ← jnp_add Rn bootstrap;
  mret (map f G).

End QLearning.

Section PPOClip.

Context {Params State Key PRNGSequence Obs Act DistParams Xa : Type}.
Variable hk_PRNGSequence : Key → PRNGSequence.
Variable next : PRNGSequence → Key * PRNGSequence.

(** [jnp.exp] on one binary32 entry. *)
Variable exp32 : float32 → float32.

Record Policy : Type := {
  apply_func : Params → State → Key → Obs → bool → DistParams * State;
  action_preprocessor_func : Params → Key → Act → Xa;
  proba_dist_log_proba : DistParams → Xa → list float32
}.

(** Lines 98-99 of [objective_func]: the clipped ratio and the objective,
    from the ratio on. *)
Definition clipped_objective (Adv ratio : list float32) (epsilon : float32)
  : M (list float32) :=
  let ratio_clip :=
    jnp_clip ratio (sub (of_Z 1) epsilon) (add (of_Z 1) epsilon) in
  bare ← jnp_mul Adv ratio;
  clipped ← jnp_mul Adv ratio_clip;
  jnp_minimum bare clipped.

(** [objective_func], lines 87-108, on the three fields [S, A, logP] it
    takes from the batch; the rank checks hold by the types. *)
Definition objective_func (pi : Policy) (params : Params) (state : State)
    (rng : Key) (S : Obs) (A : Act) (logP : list float32)
    (Adv : list float32) (epsilon : float32)
  : M (list float32 * (DistParams * list float32 * State)) :=
  let rngs := hk_PRNGSequence rng in
  let '(k, rngs) := next rngs in
  let '(dist_params, state_new) := apply_func pi params state k S true in
  let '(k, rngs) := next rngs in
  let X_a := action_preprocessor_func pi params k A in
  let log_pi := proba_dist_log_proba pi dist_params X_a in
  d ← jnp_sub log_pi logP;
  let ratio := map exp32 d in
  objective ← clipped_objective Adv ratio epsilon;
  mret (objective, (dist_params, log_pi, state_new)).

End PPOClip.

(** Binary32 constants and a q-function that reads its per-action values
    off the states. *)
Definition one : float32 := of_Z 1.
Definition zero : float32 := S754_zero false.
Definition eps_02 : float32 := div (of_Z 2) (of_Z 10).
Definition adv_089 : float32 := div (of_Z 89) (of_Z 100).

(** The exponential at the one argument the scenarios need: [exp 0 = 1]. *)
Definition exp_at_zero (x : float32) : float32 :=
  if is_zero x then one else nan.

(** A policy whose distribution parameters are the log-probabilities read
    off the states. *)
Definition policy_table : @Policy unit unit nat (list float32) unit
                            (list float32) unit :=
  {| apply_func := λ _ state _ S _, (S, state);
     action_preprocessor_func := λ _ _ A, A;
     proba_dist_log_proba := λ dist_params _, dist_params |}.

Definition q_table : @Q unit unit nat (list (list float32)) unit :=
  {| action_space_is_discrete := true;
     apply_func_type1 := λ _ state _ S _ _, (map (hd zero) S, state);
     apply_func_type2 := λ _ state _ S _, (S, state) |}.

Definition qlearning_table : QLearning :=
  {| q := q_table; q_targ := q_table;
     loss_function := λ _ _, zero;
     value_transform := (λ x, x, λ x, x) |}.

End Float32.

(** * Facts about the array operations *)

Lemma M_bind_inr {A B : Type} (f : A → M B) (x : A) : (inr x ≫= f) = f x.
Proof. reflexivity. Qed.

Lemma M_bind_mret {A B : Type} (f : A → M B) (x : A) : (mret x ≫= f) = f x.
Proof. reflexivity. Qed.

Lemma M_bind_inl {A B : Type} (f : A → M B) (e : exn) :
  (inl e ≫= f) = inl e.
Proof. reflexivity. Qed.

Lemma broadcast_same_length (f : R → R → R) (xs ys : vec) :
  length xs = length ys → broadcast f xs ys = inr (zip_with f xs ys).
Proof. intros Hlen. unfold broadcast. by rewrite decide_True. Qed.

(** Lengths of arrays built by the elementwise operations. *)
Ltac solve_lengths :=
  unfold jnp_clip, jnp_exp;
  repeat (rewrite length_map || rewrite length_zip_with);
  lia.

Example broadcast_stretches_length_one :
  broadcast Rplus [1] [2; 3] = inr [1 + 2; 1 + 3].
Proof. reflexivity. Qed.

Example broadcast_rejects_other_shapes :
  broadcast Rplus [1; 2; 3] [1; 2] = inl BroadcastError.
Proof. reflexivity. Qed.

Example jnp_max_axis1_without_actions :
  jnp_max_axis1 [[1; 2]; []] = inl ValueError.
Proof. reflexivity. Qed.

Example objective_func_rejects_short_advantage :
  PPOClip.objective_func Scenario.hk_PRNGSequence Scenario.next Scenario.ppo
    tt tt 0%nat Scenario.batch_A [1; 2; 3] 0.2 = inl BroadcastError.
Proof. reflexivity. Qed.

Lemma jnp_sum_zeros (xs : vec) : Forall (λ x, x = 0) xs → jnp_sum xs = 0.
Proof.
  induction 1 as [|x xs Hx _ IH]; simpl; [done|].
  rewrite Hx, IH. lra.
Qed.

Lemma jnp_mean_zeros (xs : vec) : Forall (λ x, x = 0) xs → jnp_mean xs = 0.
Proof.
  intros Hz. unfold jnp_mean. rewrite (jnp_sum_zeros _ Hz).
  unfold Rdiv. apply Rmult_0_l.
Qed.

(** Case analysis on the [Rmin] and [Rmax] of a clipped product. *)
Ltac minmax :=
  unfold per_transition_objective, clip, Rmin, Rmax;
  repeat (destruct (Rle_dec _ _)); try lra; try nra.



Lemma kl_terms_eq (logP log_pi : vec) :
  zip_with Rmult (jnp_exp logP) (zip_with Rminus logP log_pi)
  = zip_with kl_term_spec logP log_pi.
Proof.
  revert log_pi. induction logP as [|lP logP IH]; intros [|lp log_pi];
    simpl; try done.
  f_equal. apply IH.
Qed.



(** * Properties of the PPO-clip objective *)
Section PPOClipProperties.

Context {Params State Key PRNGSequence Obs Act DistParams Xa Grads : Type}.
Variable hk_PRNGSequence : Key → PRNGSequence.
Variable next : PRNGSequence → Key * PRNGSequence.
Variable jax_grad : (Params → R) → Params → Grads.
Variable magnitude_quantiles : Grads → list (string * R).

Local Abbreviation PPOClip :=
  (@PPOClip.PPOClip Params State Key Obs Act DistParams Xa).
Local Abbreviation objective_func := (PPOClip.objective_func hk_PRNGSequence next).
Local Abbreviation loss_func := (PPOClip.loss_func hk_PRNGSequence next).
Local Abbreviation grads_and_metrics_func :=
  (PPOClip.grads_and_metrics_func hk_PRNGSequence next jax_grad
     magnitude_quantiles).

Local Abbreviation forward := (PPOClip.forward hk_PRNGSequence next).
Local Abbreviation current_log_pi :=
  (PPOClip.current_log_pi hk_PRNGSequence next).

Lemma objective_func_eq (self : PPOClip) params state rng tb Adv epsilon :
  let log_pi := current_log_pi self params state rng tb in
  let logP := TransitionBatch.logP tb in
  length log_pi = length logP →
  length Adv = length logP →
  objective_func self params state rng tb Adv epsilon
  = inr (batch_objective_spec epsilon Adv log_pi logP,
         ((forward self params state rng tb).1, log_pi,
          (forward self params state rng tb).2)).
Proof.
  intros log_pi logP Hpi HAdv.
  unfold PPOClip.objective_func.
  subst log_pi logP.
  unfold PPOClip.current_log_pi, PPOClip.forward, first_key, second_key in *.
  destruct (next (hk_PRNGSequence rng)) as [k1 rngs1]; simpl in *.
  destruct (PPOClip.apply_func _ _ _ _ _ _) as [dist_params state_new];
    simpl in *.
  destruct (next rngs1) as [k2 rngs2]; simpl in *.
  set (log_pi := PPOClip.proba_dist_log_proba _ _ _) in *.
  unfold jnp_sub, jnp_mul, jnp_minimum.
  rewrite (broadcast_same_length Rminus) by done.
  rewrite M_bind_inr.
  rewrite !(broadcast_same_length Rmult) by solve_lengths.
  rewrite !M_bind_inr.
  rewrite (broadcast_same_length Rmin) by solve_lengths.
  rewrite M_bind_inr. simpl.
  do 2 f_equal.
  unfold batch_objective_spec, jnp_clip, jnp_exp.
  clear HAdv Hpi.
  generalize (TransitionBatch.logP tb) as logP.
  revert Adv. induction log_pi as [|lp log_pi IH]; intros [|a Adv] [|lP logP];
    simpl; try done.
  f_equal. apply IH.
Qed.

Lemma loss_func_eq (self : PPOClip) params state rng tb Adv epsilon reg_hparams :
  let log_pi := current_log_pi self params state rng tb in
  let logP := TransitionBatch.logP tb in
  let dist_params := (forward self params state rng tb).1 in
  let loss_bare := - jnp_mean (batch_objective_spec epsilon Adv log_pi logP) in
  let loss :=
    match PPOClip.regularizer self with
    | Some r =>
        loss_bare + jnp_mean (PPOClip.reg_apply_func r dist_params reg_hparams)
    | None => loss_bare
    end in
  length log_pi = length logP →
  length Adv = length logP →
  loss_func self params state rng tb Adv epsilon reg_hparams
  = inr (loss, (loss, loss_bare, dist_params, log_pi,
                (forward self params state rng tb).2)).
Proof.
  intros log_pi logP dist_params loss_bare loss Hpi HAdv.
  unfold PPOClip.loss_func.
  rewrite objective_func_eq by done.
  rewrite M_bind_inr. reflexivity.
Qed.

(** C1. The bare PPO-clip loss is the negative mean over the batch of
    [min(Adv·ρ, Adv·clip(ρ, 1−ε, 1+ε))] with [ρ = exp(log_pi − logP)], for
    every batch whose arrays [Adv], [logP] and [log_pi] hold one entry per
    transition and for every [epsilon]; on [Adv = [1, −1]], [ρ = [1.5, 0.5]],
    [epsilon = 0.2] the objective is [[1.2, −0.8]] and the bare loss is
    [−0.2]. *)
Theorem ppo_clip_loss_bare_is_negative_mean_objective
    (self : PPOClip) params state rng tb Adv epsilon reg_hparams :
  let log_pi := current_log_pi self params state rng tb in
  let logP := TransitionBatch.logP tb in
  length log_pi = length logP →
  length Adv = length logP →
  ∃ objective loss dist_params state_new,
    objective_func self params state rng tb Adv epsilon
    = inr (objective, (dist_params, log_pi, state_new)) ∧
    loss_func self params state rng tb Adv epsilon reg_hparams
    = inr (loss, (loss, - jnp_mean objective, dist_params, log_pi, state_new)) ∧
    objective
    = zip_with (λ a rho, Rmin (a * rho) (a * clip rho (1 - epsilon) (1 + epsilon)))
        Adv (zip_with (λ lp lP, exp (lp - lP)) log_pi logP) ∧
    (Adv = [1; -1] → zip_with (λ lp lP, exp (lp - lP)) log_pi logP = [1.5; 0.5] →
     epsilon = 0.2 →
     objective = [1.2; -0.8] ∧ - jnp_mean objective = -0.2).
Proof.
  intros log_pi logP Hpi HAdv.
  eexists _, _, _, _. split; [by apply objective_func_eq|].
  split; [by apply loss_func_eq|].
  split; [reflexivity|].
  intros HA Hrho Heps. fold log_pi logP.
  unfold batch_objective_spec, ratio_spec. rewrite HA, Hrho, Heps.
  assert (Hobj : zip_with (per_transition_objective 0.2) [1; -1] [1.5; 0.5]
                 = [1.2; -0.8]).
  { simpl. f_equal; [minmax|]. f_equal. minmax. }
  rewrite Hobj. split; [done|].
  unfold jnp_mean, jnp_sum. simpl. lra.
Qed.


(** C8. Without a regularizer the final PPO-clip loss is the bare loss, the
    negative mean of the per-transition objective; with a regularizer the
    mean of its per-transition penalty array is added, so a penalty that is
    zero on every transition leaves the final loss equal to the bare
    loss. *)
Theorem ppo_clip_loss_and_regularizer
    (self : PPOClip) params state rng tb Adv epsilon reg_hparams :
  let log_pi := current_log_pi self params state rng tb in
  let logP := TransitionBatch.logP tb in
  let dist_params := (forward self params state rng tb).1 in
  length log_pi = length logP →
  length Adv = length logP →
  ∃ loss loss_bare state_new,
    loss_func self params state rng tb Adv epsilon reg_hparams
    = inr (loss, (loss, loss_bare, dist_params, log_pi, state_new)) ∧
    loss_bare
    = - jnp_mean
          (zip_with (λ a rho, Rmin (a * rho) (a * clip rho (1 - epsilon) (1 + epsilon)))
             Adv (zip_with (λ lp lP, exp (lp - lP)) log_pi logP)) ∧
    (PPOClip.regularizer self = None → loss = loss_bare) ∧
    (∀ r, PPOClip.regularizer self = Some r →
          loss = loss_bare
                 + jnp_mean (PPOClip.reg_apply_func r dist_params reg_hparams)) ∧
    (∀ r, PPOClip.regularizer self = Some r →
          PPOClip.reg_apply_func r dist_params reg_hparams ≠ [] →
          Forall (λ x, x = 0) (PPOClip.reg_apply_func r dist_params reg_hparams) →
          loss = loss_bare).
Proof.
  intros log_pi logP dist_params Hpi HAdv.
  eexists _, _, _. split; [by apply loss_func_eq|].
  split; [reflexivity|].
  split; [by intros ->|].
  split.
  - by intros r ->.
  - intros r -> _ Hzero. subst dist_params.
    rewrite (jnp_mean_zeros _ Hzero). lra.
Qed.


(** A regularizer that keeps its hyperparameters in a mapping stored on
    the object: the read returns that very mapping after writing
    ['epsilon'] into it. *)
Lemma hyperparams_read_of_instance_regularizer
    (self : PPOClip) (r : PPOClip.PolicyRegularizer) (l : loc) (d : dict)
    (h : heap) :
  PPOClip.regularizer self = Some r →
  PPOClip.reg_hyperparams r = InstanceAttribute l →
  h !! l = Some d →
  ∃ h',
    PPOClip.hyperparams self h = (l, h') ∧
    h' !! l = Some (<["epsilon" := PPOClip.epsilon self]> d) ∧
    (∀ l', l' ≠ l → is_Some (h !! l') → h' !! l' = h !! l') ∧
    ∃ d', PPOClip.regularizer_hyperparams r h' = Some (l, h') ∧
          h' !! l = Some d' ∧
          d' !! "epsilon" = Some (PPOClip.epsilon self).
Proof.
  intros Hreg Hattr Hl.
  unfold PPOClip.hyperparams, PPOClip.regularizer_attribute,
    PPOClip.regularizer_hyperparams, alloc, setitem.
  rewrite Hreg, Hattr. simpl.
  assert (Hfresh : fresh (dom h) ≠ l).
  { intros Heq. apply (is_fresh (dom h)). rewrite Heq.
    apply elem_of_dom. by exists d. }
  eexists. split; [reflexivity|].
  assert (Hread : alter (<["epsilon" := PPOClip.epsilon self]>) l
                    (<[fresh (dom h) := ∅]> h) !! l
                  = Some (<["epsilon" := PPOClip.epsilon self]> d)).
  { rewrite lookup_alter_eq, lookup_insert_ne by done. by rewrite Hl. }
  split; [exact Hread|]. split.
  - intros l' Hne Hsome. rewrite lookup_alter_ne by done.
    rewrite lookup_insert_ne; [done|].
    intros <-. apply (is_fresh (dom h)). by apply elem_of_dom.
  - eexists. split; [reflexivity|]. split; [exact Hread|].
    apply lookup_insert_eq.
Qed.

(** A regularizer whose [hyperparams] is a property building a new mapping
    on each read is not affected: the write goes to the new object. *)
Lemma hyperparams_read_of_property_regularizer
    (self : PPOClip) (r : PPOClip.PolicyRegularizer) (value : dict) (h : heap) :
  PPOClip.regularizer self = Some r →
  PPOClip.reg_hyperparams r = PropertyAttribute value →
  ∃ l h', PPOClip.hyperparams self h = (l, h') ∧
          h !! l = None ∧
          (∀ l', is_Some (h !! l') → h' !! l' = h !! l') ∧
          ∃ l'' h'', PPOClip.regularizer_hyperparams r h' = Some (l'', h'') ∧
                     h'' !! l'' = Some value.
Proof.
  intros Hreg Hattr.
  unfold PPOClip.hyperparams, PPOClip.regularizer_attribute,
    PPOClip.regularizer_hyperparams, alloc, setitem.
  rewrite Hreg, Hattr. simpl.
  set (h0 := <[fresh (dom h) := ∅]> h).
  eexists _, _. split; [reflexivity|].
  assert (Hnew : ∀ l', is_Some (h !! l') → l' ≠ fresh (dom h0)
                                        ∧ l' ≠ fresh (dom h)).
  { intros l' Hsome. split; intros ->.
    - apply (is_fresh (dom h0)). apply elem_of_dom. unfold h0 at 1.
      apply lookup_insert_is_Some'. by right.
    - apply (is_fresh (dom h)). by apply elem_of_dom. }
  split.
  { destruct (h !! fresh (dom h0)) eqn:Hlook; [|done].
    destruct (Hnew (fresh (dom h0))) as [Hne _]; [by eexists|done]. }
  split.
  - intros l' Hsome. destruct (Hnew l' Hsome) as [Hne1 Hne2].
    rewrite lookup_alter_ne by done.
    rewrite lookup_insert_ne by done. subst h0.
    by rewrite lookup_insert_ne.
  - eexists _, _. split; [reflexivity|]. apply lookup_insert_eq.
Qed.

(** C10, as amended. With a regularizer that keeps its hyperparameters in a
    mapping stored on the object, a read of [PPOClip.hyperparams] returns
    that very mapping, not a copy, after writing the key ['epsilon'] into
    it: the regularizer's state is changed (every other object is untouched)
    and each later read of the regularizer's [hyperparams] holds
    ['epsilon'].  With a regularizer whose [hyperparams] is a property
    building its mapping on each read, the read of [PPOClip.hyperparams]
    returns a new object, changes no object that existed before, and a later
    read of the regularizer's [hyperparams] gives the property's own
    mapping again. *)
Theorem hyperparams_read_writes_epsilon_into_regularizer
    (self : PPOClip) (r : PPOClip.PolicyRegularizer) (h : heap) :
  PPOClip.regularizer self = Some r →
  (∀ l d,
     PPOClip.reg_hyperparams r = InstanceAttribute l →
     h !! l = Some d →
     ∃ h',
       PPOClip.hyperparams self h = (l, h') ∧
       h' !! l = Some (<["epsilon" := PPOClip.epsilon self]> d) ∧
       (∀ l', l' ≠ l → is_Some (h !! l') → h' !! l' = h !! l') ∧
       ∃ d', PPOClip.regularizer_hyperparams r h' = Some (l, h') ∧
             h' !! l = Some d' ∧
             d' !! "epsilon" = Some (PPOClip.epsilon self)) ∧
  (∀ value,
     PPOClip.reg_hyperparams r = PropertyAttribute value →
     ∃ l h',
       PPOClip.hyperparams self h = (l, h') ∧
       h !! l = None ∧
       (∀ l', is_Some (h !! l') → h' !! l' = h !! l') ∧
       ∃ l'' h'', PPOClip.regularizer_hyperparams r h' = Some (l'', h'') ∧
                  h'' !! l'' = Some value).
Proof.
  intros Hreg. split.
  - intros l d Hattr Hl.
    exact (hyperparams_read_of_instance_regularizer self r l d h Hreg Hattr Hl).
  - intros value Hattr.
    exact (hyperparams_read_of_property_regularizer self r value h Hreg Hattr).
Qed.

End PPOClipProperties.

Lemma scenario_A_ratios :
  zip_with (λ lp lP, exp (lp - lP))
    (PPOClip.current_log_pi Scenario.hk_PRNGSequence Scenario.next Scenario.ppo
       tt tt 0%nat Scenario.batch_A)
    (TransitionBatch.logP Scenario.batch_A)
  = [1.5; 0.5].
Proof.
  unfold PPOClip.current_log_pi, PPOClip.forward. simpl.
  rewrite !Rminus_0_r, !exp_ln by lra. reflexivity.
Defined.

Lemma ppo_clip_loss_bare_scenario_A :
  ∃ loss dist_params log_pi state_new,
    PPOClip.objective_func Scenario.hk_PRNGSequence Scenario.next Scenario.ppo
      tt tt 0%nat Scenario.batch_A Scenario.Adv_A 0.2
    = inr ([1.2; -0.8], (dist_params, log_pi, state_new)) ∧
    PPOClip.loss_func Scenario.hk_PRNGSequence Scenario.next Scenario.ppo
      tt tt 0%nat Scenario.batch_A Scenario.Adv_A 0.2 ∅
    = inr (loss, (loss, -0.2, dist_params, log_pi, state_new)).
Proof.
  destruct (ppo_clip_loss_bare_is_negative_mean_objective
              Scenario.hk_PRNGSequence Scenario.next Scenario.ppo
              tt tt 0%nat Scenario.batch_A Scenario.Adv_A 0.2 ∅)
    as (objective & loss & dist_params & state_new & Hobj & Hloss & _ & Hcase);
    [reflexivity | reflexivity |].
  destruct Hcase as [Ho Hl];
    [reflexivity | exact scenario_A_ratios | reflexivity |].
  eexists loss, dist_params, _, state_new.
  rewrite Hl in Hloss. rewrite Ho in Hobj. split; [exact Hobj | exact Hloss].
Defined.


Lemma zero_regularizer_penalty (l : loc) (dist_params : vec) (reg_hparams : dict) :
  Forall (λ x, x = 0)
    (PPOClip.reg_apply_func (Scenario.zero_regularizer l) dist_params reg_hparams).
Proof.
  simpl. induction dist_params as [|x xs IH]; simpl; constructor; done.
Defined.

Lemma ppo_clip_loss_with_zero_regularizer :
  ∃ loss_bare dist_params log_pi state_new,
    PPOClip.loss_func Scenario.hk_PRNGSequence Scenario.next
      Scenario.ppo_regularized tt tt 0%nat Scenario.batch_A Scenario.Adv_A 0.2 ∅
    = inr (loss_bare, (loss_bare, loss_bare, dist_params, log_pi, state_new)).
Proof.
  destruct (ppo_clip_loss_and_regularizer
              Scenario.hk_PRNGSequence Scenario.next Scenario.ppo_regularized
              tt tt 0%nat Scenario.batch_A Scenario.Adv_A 0.2 ∅)
    as (loss & loss_bare & state_new & Hrun & _ & _ & _ & Hzero);
    [reflexivity | reflexivity |].
  rewrite (Hzero _ eq_refl) in Hrun;
    [| discriminate | apply zero_regularizer_penalty].
  eexists loss_bare, _, _, state_new. exact Hrun.
Defined.


(** C10 as first stated fails for a regularizer whose [hyperparams] is a
    property building its mapping on each read: after a read of
    [PPOClip.hyperparams] the regularizer's [hyperparams] still has no
    ['epsilon'], although the mapping returned to the caller has it. *)
Lemma hyperparams_read_leaves_property_regularizer_without_epsilon :
  ∃ l h' d l2 h2 d2,
    PPOClip.regularizer ScenarioMore.ppo_property
    = Some ScenarioMore.property_regularizer ∧
    PPOClip.hyperparams ScenarioMore.ppo_property ∅ = (l, h') ∧
    h' !! l = Some d ∧ d !! "epsilon" = Some 0.1 ∧
    PPOClip.regularizer_hyperparams ScenarioMore.property_regularizer h'
    = Some (l2, h2) ∧
    h2 !! l2 = Some d2 ∧ d2 !! "epsilon" = None.
Proof.
  unfold PPOClip.hyperparams, PPOClip.regularizer_attribute,
    PPOClip.regularizer_hyperparams, alloc, setitem. simpl.
  eexists _, _, _, _, _, _. split; [reflexivity|]. split; [reflexivity|].
  split; [by rewrite lookup_alter_eq, lookup_insert_eq|].
  split; [apply lookup_insert_eq|].
  split; [reflexivity|]. split; [apply lookup_insert_eq|].
  by apply lookup_singleton_ne.
Qed.

Lemma hyperparams_read_on_stored_mapping :
  ∃ h',
    PPOClip.hyperparams Scenario.ppo_regularized {[ 1%positive := {[ "beta" := 0.01 ]} ]}
    = (1%positive, h') ∧
    h' !! 1%positive = Some (<["epsilon" := 0.2]> {[ "beta" := 0.01 ]}).
Proof.
  destruct (hyperparams_read_writes_epsilon_into_regularizer
              Scenario.ppo_regularized (Scenario.zero_regularizer 1%positive)
              {[ 1%positive := {[ "beta" := 0.01 ]} ]})
    as [Hstored _]; [reflexivity|].
  destruct (Hstored 1%positive {[ "beta" := 0.01 ]})
    as (h' & Hread & Hl & _); [reflexivity | apply lookup_singleton_eq |].
  exists h'. split; [exact Hread | exact Hl].
Defined.

(** * Properties of the Q-learning update *)

Lemma foldl_Rmax_is_max (x : R) (xs : vec) : is_max (x :: xs) (foldl Rmax x xs).
Proof.
  revert x. induction xs as [|y ys IH]; intros x; simpl.
  - split; [apply list_elem_of_here|]. constructor; [lra|constructor].
  - destruct (IH (Rmax x y)) as [Hin Hle].
    apply Forall_cons in Hle as [Hxy Hys].
    split.
    + apply elem_of_cons in Hin as [Hin|Hin].
      * rewrite Hin. unfold Rmax. destruct (Rle_dec x y).
        -- apply list_elem_of_further, list_elem_of_here.
        -- apply list_elem_of_here.
      * by do 2 apply list_elem_of_further.
    + pose proof (Rmax_l x y). pose proof (Rmax_r x y).
      constructor; [lra|]. constructor; [lra|done].
Qed.

Lemma jnp_max_axis1_is_max (rows : matrix) :
  Forall (λ row, row ≠ []) rows →
  ∃ ms, jnp_max_axis1 rows = inr ms ∧ Forall2 is_max rows ms.
Proof.
  induction 1 as [|row rows Hrow _ (ms & Hms & Hmax)]; simpl.
  - exists []. split; [done|constructor].
  - destruct row as [|x xs]; [done|]. simpl.
    rewrite Hms, M_bind_inr.
    eexists. split; [reflexivity|].
    constructor; [apply foldl_Rmax_is_max | done].
Qed.

Lemma zip_with_Rminus_inj (G Q1 Q2 : vec) :
  length G = length Q1 → length G = length Q2 →
  zip_with Rminus G Q1 = zip_with Rminus G Q2 → Q1 = Q2.
Proof.
  revert Q1 Q2. induction G as [|g G IH]; intros [|q1 Q1] [|q2 Q2];
    simpl; try done.
  intros H1 H2 Heq. injection Heq as Hhd Htl.
  f_equal; [lra|]. apply IH; [lia | lia | done].
Qed.

Lemma is_max_unique (row : vec) (m1 m2 : R) :
  is_max row m1 → is_max row m2 → m1 = m2.
Proof.
  intros [Hin1 Hle1] [Hin2 Hle2].
  rewrite Forall_forall in Hle1, Hle2.
  pose proof (Hle1 _ Hin2). pose proof (Hle2 _ Hin1). lra.
Qed.

Lemma is_max_scenario_B : is_max [1; 5; 2] 5.
Proof.
  split.
  - apply list_elem_of_further, list_elem_of_here.
  - repeat (constructor; [lra|]). constructor.
Qed.

Section QLearningProperties.

Context {Params State Key PRNGSequence Obs Act Grads : Type}.
Variable hk_PRNGSequence : Key → PRNGSequence.
Variable next : PRNGSequence → Key * PRNGSequence.
Variable jax_grad : (Params → R) → Params → Grads.
Variable magnitude_quantiles : Grads → list (string * R).
Variable huber : vec → vec → R.

Local Abbreviation Q := (@QLearning.Q Params State Key Obs Act).
Local Abbreviation QLearning := (@QLearning.QLearning Params State Key Obs Act).
Local Abbreviation loss_func := (QLearning.loss_func hk_PRNGSequence next).
Local Abbreviation td_error_func :=
  (QLearning.td_error_func hk_PRNGSequence next).
Local Abbreviation key_1 := (first_key hk_PRNGSequence next).
Local Abbreviation key_2 := (second_key hk_PRNGSequence next).

Lemma target_eq (self : QLearning) params state rng Rn In S_next f f_inv
    Q_s_next state' :
  QLearning.value_transform self = (f, f_inv) →
  QLearning.apply_func_type2 (QLearning.q_targ self) params state rng S_next
    false = (Q_s_next, state') →
  Forall (λ row, row ≠ []) Q_s_next →
  length Rn = length Q_s_next →
  length In = length Q_s_next →
  ∃ Q_sa_next,
    Forall2 is_max Q_s_next Q_sa_next ∧
    QLearning.target self params state rng Rn In S_next
    = inr (map f (zip_with Rplus Rn (zip_with Rmult In (map f_inv Q_sa_next)))).
Proof.
  intros Hvt Happly Hrows HRn HIn.
  destruct (jnp_max_axis1_is_max _ Hrows) as (ms & Hms & Hmax).
  exists ms. split; [done|].
  pose proof (Forall2_length _ _ _ Hmax) as Hlen.
  unfold QLearning.target. rewrite Hvt, Happly. simpl.
  rewrite Hms, M_bind_inr.
  unfold jnp_mul, jnp_add.
  rewrite (broadcast_same_length Rmult) by solve_lengths.
  rewrite M_bind_inr.
  rewrite (broadcast_same_length Rplus) by solve_lengths.
  by rewrite M_bind_inr.
Qed.

Lemma loss_func_unfold (self : QLearning) params target_params state rng tb :
  loss_func self params target_params state rng tb
  = (G ← QLearning.target self target_params state (key_1 rng)
           (TransitionBatch.Rn tb) (TransitionBatch.In tb)
           (TransitionBatch.S_next tb);
     let Q_state_new :=
       QLearning.apply_func_type1 (QLearning.q self) params state
         (key_2 rng) (TransitionBatch.S tb) (TransitionBatch.A tb) true in
     let loss := QLearning.loss_function self G Q_state_new.1 in
     mret (loss, (loss, G, Q_state_new.1, TransitionBatch.S tb,
                  TransitionBatch.A tb, Q_state_new.2))).
Proof.
  unfold QLearning.loss_func, first_key, second_key.
  destruct (next (hk_PRNGSequence rng)) as [k1 rngs1]. simpl.
  destruct (QLearning.target _ _ _ _ _ _ _) as [e|G]; [done|].
  rewrite !M_bind_inr.
  destruct (next rngs1) as [k2 rngs2]. simpl.
  by destruct (QLearning.apply_func_type1 _ _ _ _ _ _ _).
Qed.

Lemma td_error_func_unfold (self : QLearning) params target_params state rng tb :
  td_error_func self params target_params state rng tb
  = (G ← QLearning.target self target_params state (key_1 rng)
           (TransitionBatch.Rn tb) (TransitionBatch.In tb)
           (TransitionBatch.S_next tb);
     jnp_sub G
       (QLearning.apply_func_type1 (QLearning.q self) params state
          (key_2 rng) (TransitionBatch.S tb) (TransitionBatch.A tb)
          false).1).
Proof.
  unfold QLearning.td_error_func, first_key, second_key.
  destruct (next (hk_PRNGSequence rng)) as [k1 rngs1]. simpl.
  destruct (QLearning.target _ _ _ _ _ _ _) as [e|G]; [done|].
  rewrite !M_bind_inr.
  destruct (next rngs1) as [k2 rngs2]. simpl.
  by destruct (QLearning.apply_func_type1 _ _ _ _ _ _ _).
Qed.

(** Through [grads_and_metrics_func] the loss is evaluated on the first key
    drawn from [rng], not on [rng] itself. *)
Lemma grads_and_metrics_func_draws_the_key_of_loss_func
    (self : QLearning) params target_params state rng tb e :
  loss_func self params target_params state (key_1 rng) tb = inl e →
  QLearning.grads_and_metrics_func hk_PRNGSequence next jax_grad
    magnitude_quantiles self params target_params state rng tb = inl e.
Proof.
  unfold QLearning.grads_and_metrics_func, first_key, jax_grad_has_aux.
  destruct (next (hk_PRNGSequence rng)) as [k1 rngs1]. simpl.
  by intros ->.
Qed.

(** C2. With the identity pair as value transform the bootstrapped
    target is, transition by transition, [Rn + In · max_a Q_targ(S_next, a)],
    for every [Rn], [In] and every target-network output with at least one
    value per state; for [Q_targ(S_next) = [1, 5, 2]], [Rn = 1], [In = 0.9]
    it is 5.5. *)
Theorem qlearning_target_with_identity_transform
    (self : QLearning) params state rng Rn In S_next f f_inv Q_s_next state' :
  QLearning.value_transform self = (f, f_inv) →
  (∀ x, f x = x) →
  (∀ x, f_inv x = x) →
  QLearning.apply_func_type2 (QLearning.q_targ self) params state rng S_next
    false = (Q_s_next, state') →
  Forall (λ row, row ≠ []) Q_s_next →
  length Rn = length Q_s_next →
  length In = length Q_s_next →
  ∃ G,
    QLearning.target self params state rng Rn In S_next = inr G ∧
    length G = length Q_s_next ∧
    (∀ i r gamma row g,
       Rn !! i = Some r → In !! i = Some gamma → Q_s_next !! i = Some row →
       G !! i = Some g →
       ∃ m, is_max row m ∧ g = r + gamma * m) ∧
    (Q_s_next = [[1; 5; 2]] → Rn = [1] → In = [0.9] → G = [5.5]).
Proof.
  intros Hvt Hf Hf_inv Happly Hrows HRn HIn.
  destruct (target_eq self params state rng Rn In S_next f f_inv Q_s_next
              state' Hvt Happly Hrows HRn HIn) as (ms & Hmax & Htarget).
  pose proof (Forall2_length _ _ _ Hmax) as Hlen.
  rewrite (map_ext f (λ x, x)), map_id in Htarget by done.
  rewrite (map_ext f_inv (λ x, x)), map_id in Htarget by done.
  eexists. split; [exact Htarget|].
  split; [solve_lengths|].
  split.
  - intros i r gamma row g Hr Hgamma Hrow Hg.
    apply lookup_zip_with_Some in Hg as (r' & b & -> & Hr' & Hb).
    apply lookup_zip_with_Some in Hb as (gamma' & m & -> & Hgamma' & Hm).
    exists m. split.
    + exact (Forall2_lookup_lr _ _ _ _ _ _ Hmax Hrow Hm).
    + congruence.
  - intros -> -> ->.
    apply Forall2_cons_inv_l in Hmax as (m & ms' & Hm & Hnil & ->).
    apply Forall2_nil_inv_l in Hnil as ->.
    rewrite (is_max_unique _ _ _ Hm is_max_scenario_B).
    simpl. f_equal. lra.
Qed.

(** C6. Constructing the Q-learning update on a q-function whose action
    space is not discrete raises [NotImplementedError]; the check comes
    first, no object exists afterwards and nothing has been evaluated.  On
    a discrete action space the construction succeeds. *)
Theorem qlearning_requires_discrete_actions
    (q : Q) q_targ loss_function value_transform :
  (QLearning.action_space_is_discrete q = false →
   ∃ msg, QLearning.__init__ huber q q_targ loss_function value_transform
          = inl (NotImplementedError msg)) ∧
  (QLearning.action_space_is_discrete q = true →
   ∃ self, QLearning.__init__ huber q q_targ loss_function value_transform
           = inr self ∧
           QLearning.q self = q ∧
           QLearning.q_targ self = default q q_targ).
Proof.
  unfold QLearning.__init__. split; intros ->; simpl.
  - eexists. reflexivity.
  - eexists. split; [reflexivity|]. split; reflexivity.
Qed.

(** C3. On one and the same input, [td_error] returns [G − Q] where [G]
    comes from the same [target] call, on the first key drawn from the
    sequence, as the [G] inside [loss_func]: the two agree, and the two
    functions fail together when the target cannot be built. *)
Theorem td_error_shares_the_target_of_loss_func
    (self : QLearning) params target_params state rng tb :
  let G_path :=
    QLearning.target self target_params state (key_1 rng)
      (TransitionBatch.Rn tb) (TransitionBatch.In tb)
      (TransitionBatch.S_next tb) in
  let Q_eval :=
    (QLearning.apply_func_type1 (QLearning.q self) params state (key_2 rng)
       (TransitionBatch.S tb) (TransitionBatch.A tb) false).1 in
  (∀ e, G_path = inl e →
        loss_func self params target_params state rng tb = inl e ∧
        td_error_func self params target_params state rng tb = inl e) ∧
  (∀ G, G_path = inr G →
        (∃ loss Q state_new,
           loss_func self params target_params state rng tb
           = inr (loss, (loss, G, Q, TransitionBatch.S tb,
                         TransitionBatch.A tb, state_new))) ∧
        td_error_func self params target_params state rng tb
        = jnp_sub G Q_eval ∧
        (length G = length Q_eval →
         td_error_func self params target_params state rng tb
         = inr (zip_with Rminus G Q_eval))) ∧
  (∀ loss loss' G Q S' A' state_new,
     loss_func self params target_params state rng tb
     = inr (loss, (loss', G, Q, S', A', state_new)) →
     G_path = inr G).
Proof.
  intros G_path Q_eval.
  rewrite loss_func_unfold, td_error_func_unfold. fold G_path Q_eval.
  split; [|split].
  - by intros e ->.
  - intros G ->. rewrite !M_bind_inr. split; [|split].
    + eexists _, _, _. reflexivity.
    + reflexivity.
    + intros Hlen. unfold jnp_sub. by apply broadcast_same_length.
  - intros loss loss' G Q S' A' state_new.
    destruct G_path as [e|G']; [done|].
    rewrite M_bind_inr. simpl. intros Heq. by injection Heq as _ _ -> _ _ _ _.
Qed.

(** C9. [td_error] evaluates the main q-function at [(S, A)] with
    [is_training=False] and the loss evaluates it with [is_training=True]
    (same key, same target [G]); when the two evaluations differ, the [Q]
    subtracted in [td_error] is not the [Q] of the loss and the returned
    error is not [G − Q] for the loss's [Q]. *)
Theorem td_error_evaluates_q_outside_training_mode
    (self : QLearning) params target_params state rng tb G :
  let Q_train :=
    (QLearning.apply_func_type1 (QLearning.q self) params state (key_2 rng)
       (TransitionBatch.S tb) (TransitionBatch.A tb) true).1 in
  let Q_eval :=
    (QLearning.apply_func_type1 (QLearning.q self) params state (key_2 rng)
       (TransitionBatch.S tb) (TransitionBatch.A tb) false).1 in
  QLearning.target self target_params state (key_1 rng)
    (TransitionBatch.Rn tb) (TransitionBatch.In tb)
    (TransitionBatch.S_next tb) = inr G →
  (∃ state_new,
     loss_func self params target_params state rng tb
     = inr (QLearning.loss_function self G Q_train,
            (QLearning.loss_function self G Q_train, G, Q_train,
             TransitionBatch.S tb, TransitionBatch.A tb, state_new))) ∧
  td_error_func self params target_params state rng tb = jnp_sub G Q_eval ∧
  (Q_train ≠ Q_eval →
   length Q_train = length G → length Q_eval = length G →
   td_error_func self params target_params state rng tb
   = inr (zip_with Rminus G Q_eval) ∧
   zip_with Rminus G Q_eval ≠ zip_with Rminus G Q_train).
Proof.
  intros Q_train Q_eval HG.
  rewrite loss_func_unfold, td_error_func_unfold, HG, !M_bind_inr.
  fold Q_train Q_eval.
  split; [eexists; reflexivity|]. split; [reflexivity|].
  intros Hne Htrain Heval. split.
  - unfold jnp_sub. by apply broadcast_same_length.
  - intros Heq. apply Hne. symmetry.
    by apply (zip_with_Rminus_inj G).
Qed.

End QLearningProperties.

Lemma scenario_B_target :
  QLearning.target Scenario.qlearning tt tt 0%nat [1] [0.9] [[1; 5; 2]]
  = inr [5.5].
Proof.
  destruct (target_eq Scenario.qlearning tt tt 0%nat [1] [0.9] [[1; 5; 2]]
              (λ x, x) (λ x, x) [[1; 5; 2]] tt)
    as (ms & Hmax & Htarget); try reflexivity.
  { repeat constructor. discriminate. }
  apply Forall2_cons_inv_l in Hmax as (m & ms' & Hm & Hnil & ->).
  apply Forall2_nil_inv_l in Hnil as ->.
  rewrite (is_max_unique _ _ _ Hm is_max_scenario_B) in Htarget.
  rewrite Htarget. simpl. do 2 f_equal. lra.
Defined.

Lemma qlearning_target_scenario_B :
  QLearning.target Scenario.qlearning tt tt 0%nat [1] [0.9] [[1; 5; 2]]
  = inr [5.5].
Proof.
  destruct (qlearning_target_with_identity_transform
              Scenario.qlearning tt tt 0%nat [1] [0.9] [[1; 5; 2]]
              (λ x, x) (λ x, x) [[1; 5; 2]] tt)
    as (G & HG & _ & _ & Hcase); try reflexivity.
  { repeat constructor. discriminate. }
  rewrite (Hcase eq_refl eq_refl eq_refl) in HG. exact HG.
Defined.

Lemma qlearning_construction_scenario_C :
  (∃ msg, QLearning.__init__ Scenario.huber Scenario.q_continuous None None None
          = inl (NotImplementedError msg)) ∧
  (∃ self, QLearning.__init__ Scenario.huber Scenario.q_discrete None None None
           = inr self).
Proof.
  split.
  - apply (qlearning_requires_discrete_actions Scenario.huber
             Scenario.q_continuous None None None). reflexivity.
  - destruct (qlearning_requires_discrete_actions Scenario.huber
                Scenario.q_discrete None None None) as [_ Hok].
    destruct (Hok eq_refl) as (self & Hself & _). by exists self.
Defined.

Lemma td_error_scenario_B :
  (∃ loss Q state_new,
     QLearning.loss_func Scenario.hk_PRNGSequence Scenario.next
       Scenario.qlearning tt tt tt 0%nat Scenario.batch_B
     = inr (loss, (loss, [5.5], Q, TransitionBatch.S Scenario.batch_B,
                   TransitionBatch.A Scenario.batch_B, state_new))) ∧
  QLearning.td_error_func Scenario.hk_PRNGSequence Scenario.next
    Scenario.qlearning tt tt tt 0%nat Scenario.batch_B
  = inr [5.5 - (0 + 0)].
Proof.
  destruct (td_error_shares_the_target_of_loss_func
              Scenario.hk_PRNGSequence Scenario.next
              Scenario.qlearning tt tt tt 0%nat Scenario.batch_B)
    as (_ & Hok & _).
  destruct (Hok [5.5] scenario_B_target) as (Hloss & _ & Htd).
  split; [exact Hloss|]. by apply Htd.
Defined.

Lemma td_error_scenario_B_training_mode :
  QLearning.td_error_func Scenario.hk_PRNGSequence Scenario.next
    Scenario.qlearning tt tt tt 0%nat Scenario.batch_B
  = inr [5.5 - (0 + 0)] ∧
  [5.5 - (0 + 0)] ≠ [5.5 - (0 + 1)].
Proof.
  destruct (td_error_evaluates_q_outside_training_mode
              Scenario.hk_PRNGSequence Scenario.next
              Scenario.qlearning tt tt tt 0%nat Scenario.batch_B [5.5]
              scenario_B_target)
    as (_ & _ & Hdiff).
  apply Hdiff; [|reflexivity|reflexivity].
  simpl. intros Heq. injection Heq as Heq. lra.
Defined.


(** * Further facts about the array operations *)

Lemma broadcast_stretch_left (f : R → R → R) (x : R) (ys : vec) :
  broadcast f [x] ys = inr (map (f x) ys).
Proof.
  unfold broadcast. case_decide as Hlen; [|done].
  destruct ys as [|y [|y' ys]]; simpl in Hlen; try done.
Qed.

Lemma broadcast_mismatch (f : R → R → R) (xs ys : vec) :
  length xs ≠ length ys → length xs ≠ 1%nat → length ys ≠ 1%nat →
  broadcast f xs ys = inl BroadcastError.
Proof.
  intros Hne Hx Hy. unfold broadcast. rewrite decide_False by done.
  destruct xs as [|x [|x' xs]]; destruct ys as [|y [|y' ys]]; simpl in *;
    done.
Qed.

(** Entry-wise facts about [min(Adv·ρ, Adv·clip(ρ, 1−ε, 1+ε))]. *)
Lemma per_transition_objective_on_policy (epsilon a x : R) :
  0 <= epsilon → per_transition_objective epsilon a (exp (x - x)) = a.
Proof.
  intros Heps. replace (x - x) with 0 by lra. rewrite exp_0.
  unfold per_transition_objective, clip, Rmin, Rmax.
  repeat (destruct (Rle_dec _ _)); try lra;
    assert (epsilon = 0) as -> by lra; lra.
Qed.

Lemma per_transition_objective_degenerate_clip (epsilon a rho : R) :
  epsilon <= 0 →
  per_transition_objective epsilon a rho = Rmin (a * rho) (a * (1 + epsilon)).
Proof. intros Heps. minmax. Qed.

Lemma batch_objective_lookup (epsilon : R) (Adv log_pi logP : vec) i a o :
  Adv !! i = Some a →
  batch_objective_spec epsilon Adv log_pi logP !! i = Some o →
  ∃ lp lP, log_pi !! i = Some lp ∧ logP !! i = Some lP ∧
           o = per_transition_objective epsilon a (exp (lp - lP)).
Proof.
  intros Ha Ho. unfold batch_objective_spec in Ho.
  apply lookup_zip_with_Some in Ho as (a' & rho & -> & Ha' & Hrho).
  apply lookup_zip_with_Some in Hrho as (lp & lP & -> & Hlp & HlP).
  exists lp, lP. repeat split; try done.
  unfold ratio_spec. congruence.
Qed.

Lemma batch_objective_on_policy (epsilon : R) (Adv logP : vec) :
  0 <= epsilon → length Adv = length logP →
  batch_objective_spec epsilon Adv logP logP = Adv.
Proof.
  intros Heps. unfold batch_objective_spec, ratio_spec.
  revert logP. induction Adv as [|a Adv IH]; intros [|lP logP] Hlen;
    simpl in *; try done.
  rewrite per_transition_objective_on_policy by done.
  f_equal. apply IH. lia.
Qed.

(** * Further properties of the PPO-clip objective *)
Section PPOClipFurther.

Context {Params State Key PRNGSequence Obs Act DistParams Xa Grads : Type}.
Variable hk_PRNGSequence : Key → PRNGSequence.
Variable next : PRNGSequence → Key * PRNGSequence.
Variable jax_grad : (Params → R) → Params → Grads.
Variable magnitude_quantiles : Grads → list (string * R).

Local Abbreviation PPOClip :=
  (@PPOClip.PPOClip Params State Key Obs Act DistParams Xa).
Local Abbreviation objective_func := (PPOClip.objective_func hk_PRNGSequence next).
Local Abbreviation loss_func := (PPOClip.loss_func hk_PRNGSequence next).
Local Abbreviation grads_and_metrics_func :=
  (PPOClip.grads_and_metrics_func hk_PRNGSequence next jax_grad
     magnitude_quantiles).
Local Abbreviation forward := (PPOClip.forward hk_PRNGSequence next).
Local Abbreviation current_log_pi :=
  (PPOClip.current_log_pi hk_PRNGSequence next).

(** X3. When the current policy gives every recorded action its recorded
    log-propensity and [epsilon ≥ 0], every ratio is 1, nothing is clipped,
    the objective is the advantage itself and the bare loss is
    [−mean(Adv)]. *)
Theorem ppo_clip_on_policy_objective_is_advantage
    (self : PPOClip) params state rng tb Adv epsilon reg_hparams :
  let log_pi := current_log_pi self params state rng tb in
  let logP := TransitionBatch.logP tb in
  0 <= epsilon →
  log_pi = logP →
  length Adv = length logP →
  ∃ loss dist_params state_new,
    objective_func self params state rng tb Adv epsilon
    = inr (Adv, (dist_params, log_pi, state_new)) ∧
    loss_func self params state rng tb Adv epsilon reg_hparams
    = inr (loss, (loss, - jnp_mean Adv, dist_params, log_pi, state_new)).
Proof.
  intros log_pi logP Heps Hon HAdv.
  assert (Hpi : length log_pi = length logP) by by rewrite Hon.
  pose proof (objective_func_eq hk_PRNGSequence next self params state rng tb
                Adv epsilon Hpi HAdv) as Hobj.
  pose proof (loss_func_eq hk_PRNGSequence next self params state rng tb
                Adv epsilon reg_hparams Hpi HAdv) as Hloss.
  fold log_pi logP in Hobj, Hloss. simpl in Hobj, Hloss.
  assert (Hb : batch_objective_spec epsilon Adv log_pi logP = Adv).
  { rewrite Hon. by apply batch_objective_on_policy. }
  rewrite Hb in Hobj, Hloss.
  eexists _, _, _. split; [exact Hobj | exact Hloss].
Qed.

(** X5. [epsilon] is not checked: for [epsilon ≤ 0] the clipped ratio is the
    constant [1+epsilon] whatever the ratio is, and the objective of a
    transition is [min(Adv·ρ, Adv·(1+epsilon))]. *)
Theorem ppo_clip_objective_with_nonpositive_epsilon
    (self : PPOClip) params state rng tb Adv epsilon :
  let log_pi := current_log_pi self params state rng tb in
  let logP := TransitionBatch.logP tb in
  epsilon <= 0 →
  length log_pi = length logP →
  length Adv = length logP →
  ∃ objective aux,
    objective_func self params state rng tb Adv epsilon = inr (objective, aux) ∧
    length objective = length Adv ∧
    ∀ i a lp lP o,
      Adv !! i = Some a → log_pi !! i = Some lp → logP !! i = Some lP →
      objective !! i = Some o →
      o = Rmin (a * exp (lp - lP)) (a * (1 + epsilon)).
Proof.
  intros log_pi logP Heps Hpi HAdv.
  eexists _, _. split; [by apply objective_func_eq|].
  fold log_pi logP.
  split; [unfold batch_objective_spec; rewrite !length_zip_with; lia|].
  intros i a lp lP o Ha Hlp HlP Ho.
  destruct (batch_objective_lookup _ _ _ _ _ _ _ Ha Ho)
    as (lp' & lP' & Hlp' & HlP' & ->).
  assert (lp' = lp) as -> by congruence.
  assert (lP' = lP) as -> by congruence.
  by apply per_transition_objective_degenerate_clip.
Qed.

End PPOClipFurther.

(** The gradient diagnostics never define the keys of the two losses. *)
Lemma magnitude_quantiles_not_loss {Grads : Type}
    (magnitude_quantiles : Grads → list (string * R)) (grads : Grads) :
  get_magnitude_quantiles magnitude_quantiles grads "PPOClip/grads_"
    !! "PPOClip/loss" = None ∧
  get_magnitude_quantiles magnitude_quantiles grads "PPOClip/grads_"
    !! "PPOClip/loss_bare" = None.
Proof.
  unfold get_magnitude_quantiles.
  split; apply not_elem_of_list_to_map_1; rewrite <- list_fmap_compose;
    intros Hin; apply list_elem_of_fmap_1 in Hin as ([k v] & Hk & _);
    simpl in Hk; discriminate Hk.
Qed.

(** * Shapes, failures and metrics of the PPO-clip objective *)
Section PPOClipEdges.

Context {Params State Key PRNGSequence Obs Act DistParams Xa Grads : Type}.
Variable hk_PRNGSequence : Key → PRNGSequence.
Variable next : PRNGSequence → Key * PRNGSequence.
Variable jax_grad : (Params → R) → Params → Grads.
Variable magnitude_quantiles : Grads → list (string * R).

Local Abbreviation PPOClip :=
  (@PPOClip.PPOClip Params State Key Obs Act DistParams Xa).
Local Abbreviation objective_func := (PPOClip.objective_func hk_PRNGSequence next).
Local Abbreviation loss_func := (PPOClip.loss_func hk_PRNGSequence next).
Local Abbreviation grads_and_metrics_func :=
  (PPOClip.grads_and_metrics_func hk_PRNGSequence next jax_grad
     magnitude_quantiles).
Local Abbreviation forward := (PPOClip.forward hk_PRNGSequence next).
Local Abbreviation current_log_pi :=
  (PPOClip.current_log_pi hk_PRNGSequence next).

(** [objective_func] up to the first product with the advantage. *)
Lemma objective_func_after_ratio (self : PPOClip) params state rng tb Adv epsilon :
  let log_pi := current_log_pi self params state rng tb in
  let logP := TransitionBatch.logP tb in
  let ratio := jnp_exp (zip_with Rminus log_pi logP) in
  length log_pi = length logP →
  objective_func self params state rng tb Adv epsilon
  = (bare ← jnp_mul Adv ratio;
     clipped ← jnp_mul Adv (jnp_clip ratio (1 - epsilon) (1 + epsilon));
     objective ← jnp_minimum bare clipped;
     mret (objective, ((forward self params state rng tb).1, log_pi,
                       (forward self params state rng tb).2))).
Proof.
  intros log_pi logP ratio Hpi.
  unfold PPOClip.objective_func.
  subst ratio log_pi logP.
  unfold PPOClip.current_log_pi, PPOClip.forward, first_key, second_key in *.
  destruct (next (hk_PRNGSequence rng)) as [k1 rngs1]; simpl in *.
  destruct (PPOClip.apply_func _ _ _ _ _ _) as [dist_params state_new];
    simpl in *.
  destruct (next rngs1) as [k2 rngs2]; simpl in *.
  unfold jnp_sub. rewrite (broadcast_same_length Rminus) by done.
  rewrite M_bind_inr. reflexivity.
Qed.

(** X6. An advantage array of length one passes the rank checks and is
    silently stretched over the batch: every transition is weighted by that
    single advantage. *)
Theorem ppo_clip_single_advantage_is_broadcast
    (self : PPOClip) params state rng tb a epsilon :
  let log_pi := current_log_pi self params state rng tb in
  let logP := TransitionBatch.logP tb in
  length log_pi = length logP →
  ∃ objective aux,
    objective_func self params state rng tb [a] epsilon = inr (objective, aux) ∧
    length objective = length logP ∧
    ∀ i lp lP, log_pi !! i = Some lp → logP !! i = Some lP →
      objective !! i
      = Some (Rmin (a * exp (lp - lP))
                   (a * clip (exp (lp - lP)) (1 - epsilon) (1 + epsilon))).
Proof.
  intros log_pi logP Hpi.
  rewrite objective_func_after_ratio by done. fold log_pi logP.
  unfold jnp_mul, jnp_minimum. rewrite !broadcast_stretch_left, !M_bind_inr.
  rewrite (broadcast_same_length Rmin) by solve_lengths.
  rewrite M_bind_inr.
  eexists _, _. split; [reflexivity|].
  split; [solve_lengths|].
  intros i lp lP Hlp HlP.
  apply lookup_zip_with_Some.
  exists (a * exp (lp - lP)),
         (a * clip (exp (lp - lP)) (1 - epsilon) (1 + epsilon)).
  split; [done|].
  unfold jnp_clip, jnp_exp. rewrite !list_lookup_fmap.
  assert (Hd : zip_with Rminus log_pi logP !! i = Some (lp - lP)).
  { apply lookup_zip_with_Some. by exists lp, lP. }
  by rewrite Hd.
Qed.

(** X7. An advantage array whose length is neither the batch size nor one
    (on a batch of more than one transition) is rejected by the first
    product: [objective_func], [loss_func] and [grads_and_metrics_func]
    all raise and return no loss, gradient, state or metrics. *)
Theorem ppo_clip_rejects_mismatched_advantage
    (self : PPOClip) params state rng tb Adv epsilon reg_hparams :
  let log_pi := current_log_pi self params state rng tb in
  let logP := TransitionBatch.logP tb in
  length log_pi = length logP →
  length Adv ≠ length logP →
  length Adv ≠ 1%nat →
  length logP ≠ 1%nat →
  objective_func self params state rng tb Adv epsilon = inl BroadcastError ∧
  loss_func self params state rng tb Adv epsilon reg_hparams
  = inl BroadcastError ∧
  grads_and_metrics_func self params state rng tb Adv epsilon reg_hparams
  = inl BroadcastError.
Proof.
  intros log_pi logP Hpi HAdv HAdv1 HlogP.
  assert (Hobj : objective_func self params state rng tb Adv epsilon
                 = inl BroadcastError).
  { rewrite objective_func_after_ratio by done. fold log_pi logP.
    unfold jnp_mul.
    by rewrite !(broadcast_mismatch Rmult) by solve_lengths. }
  assert (Hloss : loss_func self params state rng tb Adv epsilon reg_hparams
                  = inl BroadcastError).
  { unfold PPOClip.loss_func. by rewrite Hobj. }
  split; [done|]. split; [done|].
  unfold PPOClip.grads_and_metrics_func, jax_grad_has_aux. by rewrite Hloss.
Qed.

(** The result of [grads_and_metrics_func] on a well-shaped batch. *)
Lemma ppo_grads_and_metrics_func_eq
    (self : PPOClip) params state rng tb Adv epsilon reg_hparams :
  let log_pi := current_log_pi self params state rng tb in
  let logP := TransitionBatch.logP tb in
  let dist_params := (forward self params state rng tb).1 in
  let loss_bare := - jnp_mean (batch_objective_spec epsilon Adv log_pi logP) in
  let loss :=
    match PPOClip.regularizer self with
    | Some r =>
        loss_bare + jnp_mean (PPOClip.reg_apply_func r dist_params reg_hparams)
    | None => loss_bare
    end in
  let grads :=
    jax_grad (λ p, match loss_func self p state rng tb Adv epsilon reg_hparams with
                   | inr (l, _) => l
                   | inl _ => 0
                   end) params in
  let own : dict :=
    <["PPOClip/kl_div_old" := jnp_mean (zip_with kl_term_spec logP log_pi)]>
      (<["PPOClip/loss_bare" := loss_bare]> (<["PPOClip/loss" := loss]> ∅)) in
  let diagnostics :=
    get_magnitude_quantiles magnitude_quantiles grads "PPOClip/grads_" in
  length log_pi = length logP →
  length Adv = length logP →
  grads_and_metrics_func self params state rng tb Adv epsilon reg_hparams
  = inr (grads, (forward self params state rng tb).2,
         match PPOClip.regularizer self with
         | Some r =>
             PPOClip.reg_metrics_func r dist_params reg_hparams
             ∪ (diagnostics ∪ own)
         | None => diagnostics ∪ own
         end).
Proof.
  intros log_pi logP dist_params loss_bare loss grads own diagnostics Hpi HAdv.
  unfold PPOClip.grads_and_metrics_func, jax_grad_has_aux.
  rewrite loss_func_eq by done.
  rewrite M_bind_inr. cbv beta iota.
  rewrite M_bind_mret. cbv beta iota. fold log_pi logP dist_params.
  unfold jnp_sub, jnp_mul.
  rewrite (broadcast_same_length Rminus) by done.
  rewrite M_bind_inr.
  rewrite (broadcast_same_length Rmult) by solve_lengths.
  rewrite M_bind_inr, kl_terms_eq.
  reflexivity.
Qed.

(** X8. On a well-shaped batch the metrics report under ['PPOClip/loss'] and
    ['PPOClip/loss_bare'] exactly the two losses [loss_func] returns, the
    gradient diagnostics never overwrite them, and the returned state is the
    one of [loss_func]'s forward pass.  (The regularizer's metrics are
    assumed not to reuse the two keys.) *)
Theorem ppo_clip_metrics_report_both_losses
    (self : PPOClip) params state rng tb Adv epsilon reg_hparams :
  let log_pi := current_log_pi self params state rng tb in
  let logP := TransitionBatch.logP tb in
  let dist_params := (forward self params state rng tb).1 in
  length log_pi = length logP →
  length Adv = length logP →
  (∀ r, PPOClip.regularizer self = Some r →
        PPOClip.reg_metrics_func r dist_params reg_hparams !! "PPOClip/loss"
        = None ∧
        PPOClip.reg_metrics_func r dist_params reg_hparams
          !! "PPOClip/loss_bare" = None) →
  ∃ grads state_new metrics loss loss_bare,
    loss_func self params state rng tb Adv epsilon reg_hparams
    = inr (loss, (loss, loss_bare, dist_params, log_pi, state_new)) ∧
    grads_and_metrics_func self params state rng tb Adv epsilon reg_hparams
    = inr (grads, state_new, metrics) ∧
    metrics !! "PPOClip/loss" = Some loss ∧
    metrics !! "PPOClip/loss_bare" = Some loss_bare.
Proof.
  intros log_pi logP dist_params Hpi HAdv Hreg.
  eexists _, _, _, _, _.
  split; [by apply loss_func_eq|].
  split; [by apply ppo_grads_and_metrics_func_eq|].
  fold log_pi logP dist_params.
  destruct (magnitude_quantiles_not_loss magnitude_quantiles
    (jax_grad (λ p, match loss_func self p state rng tb Adv epsilon reg_hparams with
                    | inr (l, _) => l
                    | inl _ => 0
                    end) params)) as [Hq1 Hq2].
  destruct (PPOClip.regularizer self) as [r|] eqn:Hr.
  - destruct (Hreg r eq_refl) as [Hr1 Hr2]. split.
    + rewrite lookup_union_r by done. rewrite lookup_union_r by done.
      by rewrite lookup_insert_ne, lookup_insert_ne, lookup_insert_eq.
    + rewrite lookup_union_r by done. rewrite lookup_union_r by done.
      by rewrite lookup_insert_ne, lookup_insert_eq.
  - split.
    + rewrite lookup_union_r by done.
      by rewrite lookup_insert_ne, lookup_insert_ne, lookup_insert_eq.
    + rewrite lookup_union_r by done.
      by rewrite lookup_insert_ne, lookup_insert_eq.
Qed.

(** X9. The regularizer's metrics are merged last: whatever key they
    define is reported with the regularizer's value, also when the key is one
    of the objective's own, such as ['PPOClip/loss']. *)
Theorem ppo_clip_regularizer_metrics_win
    (self : PPOClip) (r : PPOClip.PolicyRegularizer)
    params state rng tb Adv epsilon reg_hparams key value :
  let log_pi := current_log_pi self params state rng tb in
  let logP := TransitionBatch.logP tb in
  let dist_params := (forward self params state rng tb).1 in
  length log_pi = length logP →
  length Adv = length logP →
  PPOClip.regularizer self = Some r →
  PPOClip.reg_metrics_func r dist_params reg_hparams !! key = Some value →
  ∃ grads state_new metrics,
    grads_and_metrics_func self params state rng tb Adv epsilon reg_hparams
    = inr (grads, state_new, metrics) ∧
    metrics !! key = Some value.
Proof.
  intros log_pi logP dist_params Hpi HAdv Hr Hkey.
  eexists _, _, _.
  split; [by apply ppo_grads_and_metrics_func_eq|].
  fold log_pi logP dist_params. rewrite Hr.
  by apply lookup_union_Some_l.
Qed.

End PPOClipEdges.

(** * Further properties of the [hyperparams] property *)
Section HyperparamsFurther.

Context {Params State Key Obs Act DistParams Xa : Type}.

Local Abbreviation PPOClip :=
  (@PPOClip.PPOClip Params State Key Obs Act DistParams Xa).

(** A read on a regularizer that stores its mapping at [l]. *)
Lemma hyperparams_of_stored_mapping
    (self : PPOClip) (r : PPOClip.PolicyRegularizer) (l : loc) (d : dict)
    (h : heap) :
  PPOClip.regularizer self = Some r →
  PPOClip.reg_hyperparams r = InstanceAttribute l →
  h !! l = Some d →
  ∃ h', PPOClip.hyperparams self h = (l, h') ∧
        h' !! l = Some (<["epsilon" := PPOClip.epsilon self]> d).
Proof.
  intros Hreg Hattr Hl.
  unfold PPOClip.hyperparams, PPOClip.regularizer_attribute, alloc, setitem.
  rewrite Hreg, Hattr. simpl.
  eexists. split; [reflexivity|].
  rewrite lookup_alter_eq, lookup_insert_ne; [by rewrite Hl|].
  intros Heq. apply (is_fresh (dom h)). rewrite Heq.
  apply elem_of_dom. by exists d.
Qed.

(** X10. Without a regularizer, or with one that has no attribute
    [hyperparams], a read returns a new mapping holding only ['epsilon'], no
    existing object is changed, and the next read returns yet another
    object. *)
Theorem hyperparams_without_regularizer_is_a_new_mapping
    (self : PPOClip) (h : heap) :
  PPOClip.regularizer_attribute self = NoAttribute →
  ∃ l h',
    PPOClip.hyperparams self h = (l, h') ∧
    h !! l = None ∧
    h' !! l = Some {[ "epsilon" := PPOClip.epsilon self ]} ∧
    (∀ l', is_Some (h !! l') → h' !! l' = h !! l') ∧
    ∃ l2 h'', PPOClip.hyperparams self h' = (l2, h'') ∧ l2 ≠ l ∧
              h'' !! l = h' !! l.
Proof.
  intros Hattr.
  unfold PPOClip.hyperparams, alloc, setitem. rewrite Hattr. simpl.
  set (l := fresh (dom h)).
  assert (Hnew : h !! l = None).
  { apply not_elem_of_dom, is_fresh. }
  assert (Hl : alter (<["epsilon" := PPOClip.epsilon self]>) l (<[l := ∅]> h) !! l
               = Some {[ "epsilon" := PPOClip.epsilon self ]}).
  { by rewrite lookup_alter_eq, lookup_insert_eq. }
  eexists _, _. split; [reflexivity|].
  split; [done|]. split; [done|]. split.
  - intros l' Hsome.
    assert (l' ≠ l) by (intros ->; rewrite Hnew in Hsome; by destruct Hsome).
    by rewrite lookup_alter_ne, lookup_insert_ne.
  - set (h' := alter _ l _) in *. set (l2 := fresh (dom h')).
    assert (Hl2 : l2 ≠ l).
    { intros Heq. apply (is_fresh (dom h')). fold l2. rewrite Heq.
      apply elem_of_dom. by eexists. }
    eexists _, _. split; [reflexivity|]. split; [done|].
    by rewrite lookup_alter_ne, lookup_insert_ne.
Qed.

(** X12. On a regularizer that stores its mapping, a read overwrites an
    entry ['epsilon'] the mapping may already have, keeps every other key,
    and a second read returns the same object with the same contents. *)
Theorem hyperparams_overwrites_epsilon_and_is_idempotent
    (self : PPOClip) (r : PPOClip.PolicyRegularizer) (l : loc) (d : dict)
    (h : heap) :
  PPOClip.regularizer self = Some r →
  PPOClip.reg_hyperparams r = InstanceAttribute l →
  h !! l = Some d →
  ∃ h1 h2 d1,
    PPOClip.hyperparams self h = (l, h1) ∧
    h1 !! l = Some d1 ∧
    d1 !! "epsilon" = Some (PPOClip.epsilon self) ∧
    (∀ k, k ≠ "epsilon" → d1 !! k = d !! k) ∧
    PPOClip.hyperparams self h1 = (l, h2) ∧
    h2 !! l = Some d1.
Proof.
  intros Hreg Hattr Hl.
  destruct (hyperparams_of_stored_mapping self r l d h Hreg Hattr Hl)
    as (h1 & Hread1 & Hl1).
  destruct (hyperparams_of_stored_mapping self r l _ h1 Hreg Hattr Hl1)
    as (h2 & Hread2 & Hl2).
  exists h1, h2, (<["epsilon" := PPOClip.epsilon self]> d).
  split; [done|]. split; [done|].
  split; [apply lookup_insert_eq|].
  split; [intros k Hk; by apply lookup_insert_ne|].
  split; [done|].
  by rewrite insert_insert_eq in Hl2.
Qed.

End HyperparamsFurther.

Section HyperparamsOfProperty.

Context {Params State Key Obs Act DistParams Xa : Type}.

Local Abbreviation PPOClip :=
  (@PPOClip.PPOClip Params State Key Obs Act DistParams Xa).

(** X11. On a regularizer whose [hyperparams] is a property building a new
    mapping per read, a read returns a new object holding the regularizer's
    entries and ['epsilon']; no existing object is changed, and a later read
    of the regularizer's [hyperparams] gives another object with the
    regularizer's entries only. *)
Theorem hyperparams_of_property_regularizer_is_a_copy
    (self : PPOClip) (r : PPOClip.PolicyRegularizer) (value : dict) (h : heap) :
  PPOClip.regularizer self = Some r →
  PPOClip.reg_hyperparams r = PropertyAttribute value →
  ∃ l h',
    PPOClip.hyperparams self h = (l, h') ∧
    h !! l = None ∧
    h' !! l = Some (<["epsilon" := PPOClip.epsilon self]> value) ∧
    (∀ l', is_Some (h !! l') → h' !! l' = h !! l') ∧
    ∃ l2 h2, PPOClip.regularizer_hyperparams r h' = Some (l2, h2) ∧
             l2 ≠ l ∧ h2 !! l2 = Some value.
Proof.
  intros Hreg Hattr.
  unfold PPOClip.hyperparams, PPOClip.regularizer_attribute,
    PPOClip.regularizer_hyperparams, alloc, setitem.
  rewrite Hreg, Hattr. simpl.
  set (l0 := fresh (dom h)). set (h0 := <[l0 := ∅]> h).
  set (l := fresh (dom h0)).
  assert (Hl0 : h !! l0 = None) by apply not_elem_of_dom, is_fresh.
  assert (Hl : h0 !! l = None) by apply not_elem_of_dom, is_fresh.
  assert (Hll0 : l ≠ l0).
  { intros Heq. rewrite Heq in Hl. subst h0.
    by rewrite lookup_insert_eq in Hl. }
  assert (Hhl : h !! l = None).
  { subst h0. by rewrite lookup_insert_ne in Hl. }
  set (h' := alter (<["epsilon" := PPOClip.epsilon self]>) l (<[l := value]> h0)).
  assert (Hh'l : h' !! l = Some (<["epsilon" := PPOClip.epsilon self]> value)).
  { subst h'. by rewrite lookup_alter_eq, lookup_insert_eq. }
  exists l, h'. split; [reflexivity|].
  split; [done|]. split; [done|]. split.
  - intros l' Hsome.
    assert (l' ≠ l) by (intros ->; rewrite Hhl in Hsome; by destruct Hsome).
    assert (l' ≠ l0) by (intros ->; rewrite Hl0 in Hsome; by destruct Hsome).
    subst h' h0.
    by rewrite lookup_alter_ne, lookup_insert_ne, lookup_insert_ne.
  - set (l2 := fresh (dom h')).
    assert (Hl2 : l2 ≠ l).
    { intros Heq. apply (is_fresh (dom h')). fold l2. rewrite Heq.
      apply elem_of_dom. by eexists. }
    eexists _, _. split; [reflexivity|]. split; [done|].
    apply lookup_insert_eq.
Qed.

End HyperparamsOfProperty.

(** * Further facts used for the Q-learning update *)

Lemma is_max_Permutation (row row' : vec) (m : R) :
  row ≡ₚ row' → is_max row m → is_max row' m.
Proof.
  intros Hperm [Hin Hle]. split.
  - by rewrite <- Hperm.
  - by rewrite <- Hperm.
Qed.

Lemma row_max_Permutation (row row' : vec) :
  row ≡ₚ row' → row_max row = row_max row'.
Proof.
  intros Hperm.
  destruct row as [|x xs], row' as [|y ys]; simpl.
  - done.
  - by apply Permutation_nil_cons in Hperm.
  - symmetry in Hperm. by apply Permutation_nil_cons in Hperm.
  - f_equal. apply (is_max_unique (y :: ys)).
    + eapply is_max_Permutation; [exact Hperm|]. apply foldl_Rmax_is_max.
    + apply foldl_Rmax_is_max.
Qed.

Lemma jnp_max_axis1_Permutation (rows rows' : matrix) :
  Forall2 (≡ₚ) rows rows' → jnp_max_axis1 rows = jnp_max_axis1 rows'.
Proof.
  induction 1 as [|row row' rows rows' Hrow _ IH]; simpl; [done|].
  by rewrite (row_max_Permutation _ _ Hrow), IH.
Qed.

Lemma jnp_max_axis1_empty_row (rows : matrix) :
  [] ∈ rows → jnp_max_axis1 rows = inl ValueError.
Proof.
  induction rows as [|row rows IH]; intros Hin.
  - by apply elem_of_nil in Hin.
  - apply elem_of_cons in Hin as [<-|Hin]; simpl; [done|].
    destruct row as [|x xs]; [done|]. simpl.
    by rewrite (IH Hin).
Qed.

Lemma is_max_mono (row row' : vec) (m m' : R) :
  Forall2 Rle row row' → is_max row m → is_max row' m' → m <= m'.
Proof.
  intros Hle [Hin _] [_ Hall].
  apply list_elem_of_lookup in Hin as [i Hi].
  destruct (Forall2_lookup_l _ _ _ _ _ Hle Hi) as (x' & Hi' & Hx).
  rewrite Forall_forall in Hall.
  pose proof (Hall x' (list_elem_of_lookup_2 _ _ _ Hi')). lra.
Qed.

Lemma get_magnitude_quantiles_other_key {Grads : Type}
    (magnitude_quantiles : Grads → list (string * R)) (grads : Grads)
    (key_prefix key : string) :
  (∀ s, key_prefix +:+ s ≠ key) →
  get_magnitude_quantiles magnitude_quantiles grads key_prefix !! key = None.
Proof.
  intros Hkey. unfold get_magnitude_quantiles.
  apply not_elem_of_list_to_map_1. rewrite <- list_fmap_compose. intros Hin.
  apply list_elem_of_fmap_1 in Hin as ([k v] & Hk & _).
  simpl in Hk. by apply (Hkey k).
Qed.

Lemma target_entry_lookup (f f_inv : R → R) (Rn In ms : vec) i g :
  map f (zip_with Rplus Rn (zip_with Rmult In (map f_inv ms))) !! i = Some g →
  ∃ r gamma m, Rn !! i = Some r ∧ In !! i = Some gamma ∧ ms !! i = Some m ∧
               g = f (r + gamma * f_inv m).
Proof.
  intros Hg.
  apply list_lookup_fmap_Some_1 in Hg as (s & -> & Hs).
  apply lookup_zip_with_Some in Hs as (r & b & -> & Hr & Hb).
  apply lookup_zip_with_Some in Hb as (gamma & y & -> & Hgamma & Hy).
  apply list_lookup_fmap_Some_1 in Hy as (m & -> & Hm).
  by exists r, gamma, m.
Qed.

(** * Further properties of the Q-learning update *)
Section QLearningFurther.

Context {Params State Key PRNGSequence Obs Act Grads : Type}.
Variable hk_PRNGSequence : Key → PRNGSequence.
Variable next : PRNGSequence → Key * PRNGSequence.
Variable jax_grad : (Params → R) → Params → Grads.
Variable magnitude_quantiles : Grads → list (string * R).

Local Abbreviation QLearning := (@QLearning.QLearning Params State Key Obs Act).
Local Abbreviation loss_func := (QLearning.loss_func hk_PRNGSequence next).
Local Abbreviation td_error_func :=
  (QLearning.td_error_func hk_PRNGSequence next).
Local Abbreviation grads_and_metrics_func :=
  (QLearning.grads_and_metrics_func hk_PRNGSequence next jax_grad
     magnitude_quantiles).
Local Abbreviation key_1 := (first_key hk_PRNGSequence next).
Local Abbreviation key_2 := (second_key hk_PRNGSequence next).

(** The entries of a target built from a well-shaped batch. *)
Lemma target_entries (self : QLearning) params state rng Rn In S_next f f_inv
    Q_s_next state' :
  QLearning.value_transform self = (f, f_inv) →
  QLearning.apply_func_type2 (QLearning.q_targ self) params state rng S_next
    false = (Q_s_next, state') →
  Forall (λ row, row ≠ []) Q_s_next →
  length Rn = length Q_s_next →
  length In = length Q_s_next →
  ∃ G,
    QLearning.target self params state rng Rn In S_next = inr G ∧
    length G = length Q_s_next ∧
    ∀ i g, G !! i = Some g →
      ∃ r gamma row m,
        Rn !! i = Some r ∧ In !! i = Some gamma ∧ Q_s_next !! i = Some row ∧
        is_max row m ∧ g = f (r + gamma * f_inv m).
Proof.
  intros Hvt Happly Hrows HRn HIn.
  destruct (target_eq self params state rng Rn In S_next f f_inv Q_s_next
              state' Hvt Happly Hrows HRn HIn) as (ms & Hmax & Htarget).
  pose proof (Forall2_length _ _ _ Hmax) as Hlen.
  eexists. split; [exact Htarget|].
  split; [solve_lengths|].
  intros i g Hg.
  apply target_entry_lookup in Hg as (r & gamma & m & Hr & Hgamma & Hm & ->).
  destruct (Forall2_lookup_r _ _ _ _ _ Hmax Hm) as (row & Hrow & Hismax).
  by exists r, gamma, row, m.
Qed.

(** X13. With non-decreasing transforms and [In ≥ 0], the target of a
    transition dominates the bootstrapped return of every single action:
    [G ≥ f(Rn + In · f_inv(q))] for each value [q] the target network gives at
    [S_next]. *)
Theorem qlearning_target_dominates_every_action
    (self : QLearning) params state rng Rn In S_next f f_inv Q_s_next state' :
  QLearning.value_transform self = (f, f_inv) →
  (∀ x y, x <= y → f x <= f y) →
  (∀ x y, x <= y → f_inv x <= f_inv y) →
  QLearning.apply_func_type2 (QLearning.q_targ self) params state rng S_next
    false = (Q_s_next, state') →
  Forall (λ row, row ≠ []) Q_s_next →
  length Rn = length Q_s_next →
  length In = length Q_s_next →
  ∃ G,
    QLearning.target self params state rng Rn In S_next = inr G ∧
    length G = length Q_s_next ∧
    ∀ i r gamma row q g,
      Rn !! i = Some r → In !! i = Some gamma → 0 <= gamma →
      Q_s_next !! i = Some row → q ∈ row → G !! i = Some g →
      f (r + gamma * f_inv q) <= g.
Proof.
  intros Hvt Hf Hf_inv Happly Hrows HRn HIn.
  destruct (target_entries self params state rng Rn In S_next f f_inv
              Q_s_next state' Hvt Happly Hrows HRn HIn)
    as (G & HG & Hlen & Hentries).
  exists G. split; [done|]. split; [done|].
  intros i r gamma row q g Hr Hgamma Hpos Hrow Hq Hg.
  destruct (Hentries i g Hg)
    as (r' & gamma' & row' & m & Hr' & Hgamma' & Hrow' & [_ Hall] & ->).
  assert (r' = r) as -> by congruence.
  assert (gamma' = gamma) as -> by congruence.
  assert (row' = row) as -> by congruence.
  rewrite Forall_forall in Hall.
  pose proof (Hf_inv q m (Hall q Hq)).
  apply Hf. nra.
Qed.

(** X14. The target does not depend on the order in which the target
    network lists the action values of a state: two outputs whose rows are
    permutations of each other give the same result, failures included. *)
Theorem qlearning_target_ignores_action_order
    (self : QLearning) params state rng S_next params' state' rng' S_next'
    Rn In Q_s_next Q_s_next' state1 state2 :
  QLearning.apply_func_type2 (QLearning.q_targ self) params state rng S_next
    false = (Q_s_next, state1) →
  QLearning.apply_func_type2 (QLearning.q_targ self) params' state' rng'
    S_next' false = (Q_s_next', state2) →
  Forall2 (≡ₚ) Q_s_next Q_s_next' →
  QLearning.target self params state rng Rn In S_next
  = QLearning.target self params' state' rng' Rn In S_next'.
Proof.
  intros Happly Happly' Hperm.
  unfold QLearning.target.
  destruct (QLearning.value_transform self) as [f f_inv].
  rewrite Happly, Happly'. simpl.
  by rewrite (jnp_max_axis1_Permutation _ _ Hperm).
Qed.

(** X15. When the two transforms are mutually inverse ([f (f_inv x) = x]),
    a transition with [Rn = 0] and [In = 1] gets as target exactly the
    largest value the target network gives at [S_next]: the transform
    cancels. *)
Theorem qlearning_target_transform_round_trip
    (self : QLearning) params state rng Rn In S_next f f_inv Q_s_next state' :
  QLearning.value_transform self = (f, f_inv) →
  (∀ x, f (f_inv x) = x) →
  QLearning.apply_func_type2 (QLearning.q_targ self) params state rng S_next
    false = (Q_s_next, state') →
  Forall (λ row, row ≠ []) Q_s_next →
  length Rn = length Q_s_next →
  length In = length Q_s_next →
  ∃ G,
    QLearning.target self params state rng Rn In S_next = inr G ∧
    length G = length Q_s_next ∧
    ∀ i row g,
      Rn !! i = Some 0 → In !! i = Some 1 → Q_s_next !! i = Some row →
      G !! i = Some g → is_max row g.
Proof.
  intros Hvt Hinv Happly Hrows HRn HIn.
  destruct (target_entries self params state rng Rn In S_next f f_inv
              Q_s_next state' Hvt Happly Hrows HRn HIn)
    as (G & HG & Hlen & Hentries).
  exists G. split; [done|]. split; [done|].
  intros i row g Hr Hgamma Hrow Hg.
  destruct (Hentries i g Hg)
    as (r' & gamma' & row' & m & Hr' & Hgamma' & Hrow' & Hmax & ->).
  assert (r' = 0) as -> by congruence.
  assert (gamma' = 1) as -> by congruence.
  assert (row' = row) as -> by congruence.
  replace (0 + 1 * f_inv m) with (f_inv m) by lra.
  by rewrite Hinv.
Qed.

(** X16. With non-decreasing transforms and [In ≥ 0] the target is
    monotone in the estimates of the target network: raising action values
    never lowers a target. *)
Theorem qlearning_target_is_monotone_in_estimates
    (self : QLearning) params state rng S_next params' state' rng' S_next'
    Rn In f f_inv Q_s_next Q_s_next' state1 state2 :
  QLearning.value_transform self = (f, f_inv) →
  (∀ x y, x <= y → f x <= f y) →
  (∀ x y, x <= y → f_inv x <= f_inv y) →
  QLearning.apply_func_type2 (QLearning.q_targ self) params state rng S_next
    false = (Q_s_next, state1) →
  QLearning.apply_func_type2 (QLearning.q_targ self) params' state' rng'
    S_next' false = (Q_s_next', state2) →
  Forall2 (Forall2 Rle) Q_s_next Q_s_next' →
  Forall (λ row, row ≠ []) Q_s_next →
  length Rn = length Q_s_next →
  length In = length Q_s_next →
  Forall (λ gamma, 0 <= gamma) In →
  ∃ G G',
    QLearning.target self params state rng Rn In S_next = inr G ∧
    QLearning.target self params' state' rng' Rn In S_next' = inr G' ∧
    Forall2 Rle G G'.
Proof.
  intros Hvt Hf Hf_inv Happly Happly' Hle Hrows HRn HIn Hpos.
  pose proof (Forall2_length _ _ _ Hle) as Hlen.
  assert (Hrows' : Forall (λ row, row ≠ []) Q_s_next').
  { apply Forall_lookup. intros i row' Hrow' ->.
    destruct (Forall2_lookup_r _ _ _ _ _ Hle Hrow') as (row & Hrow & Hrr).
    apply Forall2_nil_inv_r in Hrr as ->.
    by apply (Forall_lookup_1 _ _ _ _ Hrows Hrow). }
  destruct (target_entries self params state rng Rn In S_next f f_inv
              Q_s_next state1 Hvt Happly Hrows HRn HIn)
    as (G & HG & HlenG & Hentries).
  destruct (target_entries self params' state' rng' Rn In S_next' f f_inv
              Q_s_next' state2 Hvt Happly' Hrows') as (G' & HG' & HlenG' & Hentries');
    [lia | lia |].
  exists G, G'. split; [done|]. split; [done|].
  apply Forall2_same_length_lookup_2; [lia|].
  intros i g g' Hg Hg'.
  destruct (Hentries i g Hg)
    as (r & gamma & row & m & Hr & Hgamma & Hrow & Hmax & ->).
  destruct (Hentries' i g' Hg')
    as (r' & gamma' & row' & m' & Hr' & Hgamma' & Hrow' & Hmax' & ->).
  assert (r' = r) as -> by congruence.
  assert (gamma' = gamma) as -> by congruence.
  pose proof (Forall_lookup_1 _ _ _ _ Hpos Hgamma) as Hgam. simpl in Hgam.
  assert (Hmm : m <= m').
  { eapply is_max_mono; [|exact Hmax|exact Hmax'].
    exact (Forall2_lookup_lr _ _ _ _ _ _ Hle Hrow Hrow'). }
  pose proof (Hf_inv m m' Hmm).
  apply Hf. nra.
Qed.

(** X17. A state for which the target network lists no action value makes
    [target] raise [ValueError], whatever [Rn] and [In] are (also on a
    terminal transition), and [loss_func] and [td_error_func] raise with
    it. *)
Theorem qlearning_rejects_state_without_actions
    (self : QLearning) params target_params state rng tb Q_s_next state' :
  QLearning.apply_func_type2 (QLearning.q_targ self) target_params state
    (key_1 rng) (TransitionBatch.S_next tb) false = (Q_s_next, state') →
  [] ∈ Q_s_next →
  QLearning.target self target_params state (key_1 rng)
    (TransitionBatch.Rn tb) (TransitionBatch.In tb) (TransitionBatch.S_next tb)
  = inl ValueError ∧
  loss_func self params target_params state rng tb = inl ValueError ∧
  td_error_func self params target_params state rng tb = inl ValueError.
Proof.
  intros Happly Hempty.
  assert (Htarget :
    QLearning.target self target_params state (key_1 rng)
      (TransitionBatch.Rn tb) (TransitionBatch.In tb)
      (TransitionBatch.S_next tb) = inl ValueError).
  { unfold QLearning.target.
    destruct (QLearning.value_transform self) as [f f_inv].
    rewrite Happly. simpl. by rewrite jnp_max_axis1_empty_row. }
  split; [done|].
  rewrite loss_func_unfold, td_error_func_unfold, Htarget. by split.
Qed.

(** X20. A discount array [In] whose length is neither the number of states
    the target network answered for nor one (with more than one such state)
    is rejected by the product with the bootstrap estimate: [target],
    [loss_func] and [td_error_func] raise and return nothing. *)
Theorem qlearning_rejects_mismatched_discounts
    (self : QLearning) params target_params state rng tb Q_s_next state' :
  QLearning.apply_func_type2 (QLearning.q_targ self) target_params state
    (key_1 rng) (TransitionBatch.S_next tb) false = (Q_s_next, state') →
  Forall (λ row, row ≠ []) Q_s_next →
  length (TransitionBatch.In tb) ≠ length Q_s_next →
  length (TransitionBatch.In tb) ≠ 1%nat →
  length Q_s_next ≠ 1%nat →
  QLearning.target self target_params state (key_1 rng)
    (TransitionBatch.Rn tb) (TransitionBatch.In tb) (TransitionBatch.S_next tb)
  = inl BroadcastError ∧
  loss_func self params target_params state rng tb = inl BroadcastError ∧
  td_error_func self params target_params state rng tb = inl BroadcastError.
Proof.
  intros Happly Hrows HIn HIn1 Hrows1.
  assert (Htarget :
    QLearning.target self target_params state (key_1 rng)
      (TransitionBatch.Rn tb) (TransitionBatch.In tb)
      (TransitionBatch.S_next tb) = inl BroadcastError).
  { unfold QLearning.target.
    destruct (QLearning.value_transform self) as [f f_inv].
    rewrite Happly. simpl.
    destruct (jnp_max_axis1_is_max _ Hrows) as (ms & Hms & Hmax).
    pose proof (Forall2_length _ _ _ Hmax) as Hlen.
    rewrite Hms, M_bind_inr. unfold jnp_mul.
    by rewrite broadcast_mismatch by solve_lengths. }
  split; [done|].
  rewrite loss_func_unfold, td_error_func_unfold, Htarget. by split.
Qed.

End QLearningFurther.

Lemma zip_with_Rminus_diag (xs : vec) :
  Forall (λ x, x = 0) (zip_with Rminus xs xs).
Proof. induction xs as [|x xs IH]; simpl; constructor; [lra|done]. Qed.

Lemma square_zeros (xs : vec) :
  Forall (λ x, x = 0) xs → Forall (λ x, x = 0) (map (λ x, x * x) xs).
Proof.
  induction 1 as [|x xs Hx _ IH]; simpl; constructor; [|done].
  rewrite Hx. lra.
Qed.

(** * The metrics of the Q-learning update *)
Section QLearningMetrics.

Context {Params State Key PRNGSequence Obs Act Grads : Type}.
Variable hk_PRNGSequence : Key → PRNGSequence.
Variable next : PRNGSequence → Key * PRNGSequence.
Variable jax_grad : (Params → R) → Params → Grads.
Variable magnitude_quantiles : Grads → list (string * R).

Local Abbreviation QLearning := (@QLearning.QLearning Params State Key Obs Act).
Local Abbreviation loss_func := (QLearning.loss_func hk_PRNGSequence next).
Local Abbreviation grads_and_metrics_func :=
  (QLearning.grads_and_metrics_func hk_PRNGSequence next jax_grad
     magnitude_quantiles).
Local Abbreviation key_1 := (first_key hk_PRNGSequence next).
Local Abbreviation key_2 := (second_key hk_PRNGSequence next).

(** The result of [grads_and_metrics_func] on a well-shaped batch: the loss
    runs on the first key drawn from [rng], the target network is evaluated
    at [(S, A)] on the second. *)
Lemma q_grads_and_metrics_func_eq
    (self : QLearning) params target_params state rng tb G :
  let k := key_1 rng in
  let Q_state_new :=
    QLearning.apply_func_type1 (QLearning.q self) params state (key_2 k)
      (TransitionBatch.S tb) (TransitionBatch.A tb) true in
  let Q := Q_state_new.1 in
  let Q_targ :=
    (QLearning.apply_func_type1 (QLearning.q_targ self) target_params state
       (key_2 rng) (TransitionBatch.S tb) (TransitionBatch.A tb) false).1 in
  let err := zip_with Rminus Q G in
  let err_targ := zip_with Rminus Q_targ Q in
  let square := map (λ x, x * x) in
  QLearning.target self target_params state (key_1 k)
    (TransitionBatch.Rn tb) (TransitionBatch.In tb) (TransitionBatch.S_next tb)
  = inr G →
  length Q = length G →
  length Q_targ = length Q →
  ∃ grads,
    grads_and_metrics_func self params target_params state rng tb
    = inr (grads, Q_state_new.2,
           get_magnitude_quantiles magnitude_quantiles grads "QLearning/grads_"
           ∪ (<["QLearning/rmse_targ" := sqrt (jnp_mean (square err_targ))]>
              (<["QLearning/bias_targ" := jnp_mean err_targ]>
              (<["QLearning/rmse" := sqrt (jnp_mean (square err))]>
              (<["QLearning/bias" := jnp_mean err]>
              (<["QLearning/loss" := QLearning.loss_function self G Q]> ∅)))))).
Proof.
  intros k Q_state_new Q Q_targ err err_targ square HG HQ HQ_targ.
  subst err err_targ square Q Q_targ Q_state_new k.
  unfold QLearning.grads_and_metrics_func, jax_grad_has_aux.
  unfold first_key, second_key in *.
  destruct (next (hk_PRNGSequence rng)) as [k rngs1]. simpl in *.
  eexists.
  rewrite loss_func_unfold. unfold first_key, second_key.
  rewrite HG, M_bind_inr. cbv beta iota zeta.
  rewrite M_bind_mret. cbv beta iota.
  destruct (next rngs1) as [k2 rngs2]. simpl in *.
  destruct (QLearning.apply_func_type1 (QLearning.q_targ self) _ _ _ _ _ _)
    as [Q_targ state_targ]. simpl in *.
  unfold jnp_sub. rewrite !(broadcast_same_length Rminus) by done.
  rewrite !M_bind_inr.
  reflexivity.
Qed.

(** X18. On a non-empty well-shaped batch the metrics report the mean
    residual [mean(Q − G)] as [bias] and its root mean square
    [sqrt(mean((Q − G)²))] as [rmse], and likewise [mean(Q_targ − Q)] as
    [bias_targ] and [sqrt(mean((Q_targ − Q)²))] as [rmse_targ]; the
    gradient diagnostics never overwrite them. *)
Theorem qlearning_metrics_bias_and_rmse
    (self : QLearning) params target_params state rng tb G :
  let k := key_1 rng in
  let Q :=
    (QLearning.apply_func_type1 (QLearning.q self) params state (key_2 k)
       (TransitionBatch.S tb) (TransitionBatch.A tb) true).1 in
  let Q_targ :=
    (QLearning.apply_func_type1 (QLearning.q_targ self) target_params state
       (key_2 rng) (TransitionBatch.S tb) (TransitionBatch.A tb) false).1 in
  QLearning.target self target_params state (key_1 k)
    (TransitionBatch.Rn tb) (TransitionBatch.In tb) (TransitionBatch.S_next tb)
  = inr G →
  G ≠ [] →
  length Q = length G →
  length Q_targ = length Q →
  let err := zip_with Rminus Q G in
  let err_targ := zip_with Rminus Q_targ Q in
  ∃ grads state_new metrics,
    grads_and_metrics_func self params target_params state rng tb
    = inr (grads, state_new, metrics) ∧
    metrics !! "QLearning/bias" = Some (jnp_mean err) ∧
    metrics !! "QLearning/rmse"
    = Some (sqrt (jnp_mean (map (λ x, x * x) err))) ∧
    metrics !! "QLearning/bias_targ" = Some (jnp_mean err_targ) ∧
    metrics !! "QLearning/rmse_targ"
    = Some (sqrt (jnp_mean (map (λ x, x * x) err_targ))).
Proof.
  intros k Q Q_targ HG Hne HQ HQ_targ err err_targ.
  destruct (q_grads_and_metrics_func_eq self params target_params state rng tb
              G HG HQ HQ_targ) as (grads & Hrun).
  eexists _, _, _. split; [exact Hrun|].
  fold k Q Q_targ err err_targ.
  repeat split;
    (rewrite lookup_union_r
       by (apply get_magnitude_quantiles_other_key; intros s Hs;
           discriminate Hs));
    by simplify_map_eq.
Qed.

(** X19. When the target network's value at [(S, A)] equals the main
    network's prediction, the metrics report [bias_targ = 0] and
    [rmse_targ = 0]. *)
Theorem qlearning_metrics_target_residual_vanishes
    (self : QLearning) params target_params state rng tb G :
  let k := key_1 rng in
  let Q :=
    (QLearning.apply_func_type1 (QLearning.q self) params state (key_2 k)
       (TransitionBatch.S tb) (TransitionBatch.A tb) true).1 in
  let Q_targ :=
    (QLearning.apply_func_type1 (QLearning.q_targ self) target_params state
       (key_2 rng) (TransitionBatch.S tb) (TransitionBatch.A tb) false).1 in
  QLearning.target self target_params state (key_1 k)
    (TransitionBatch.Rn tb) (TransitionBatch.In tb) (TransitionBatch.S_next tb)
  = inr G →
  G ≠ [] →
  length Q = length G →
  Q_targ = Q →
  ∃ grads state_new metrics,
    grads_and_metrics_func self params target_params state rng tb
    = inr (grads, state_new, metrics) ∧
    metrics !! "QLearning/bias_targ" = Some 0 ∧
    metrics !! "QLearning/rmse_targ" = Some 0.
Proof.
  intros k Q Q_targ HG Hne HQ Hsame.
  assert (HQ_targ : length Q_targ = length Q) by by rewrite Hsame.
  destruct (q_grads_and_metrics_func_eq self params target_params state rng tb
              G HG HQ HQ_targ) as (grads & Hrun).
  eexists _, _, _. split; [exact Hrun|].
  fold k Q Q_targ. rewrite Hsame.
  pose proof (zip_with_Rminus_diag Q) as Hzero.
  rewrite (jnp_mean_zeros _ (square_zeros _ Hzero)), (jnp_mean_zeros _ Hzero),
    sqrt_0.
  split;
    (rewrite lookup_union_r
       by (apply get_magnitude_quantiles_other_key; intros s Hs;
           discriminate Hs));
    by simplify_map_eq.
Qed.

End QLearningMetrics.

(** * The further properties on the scenarios *)

Lemma on_policy_objective_scenario :
  ∃ loss dist_params log_pi state_new,
    PPOClip.loss_func Scenario.hk_PRNGSequence Scenario.next Scenario.ppo
      tt tt 0%nat Scenario.batch_on_policy Scenario.Adv_A 0.2 ∅
    = inr (loss, (loss, - jnp_mean Scenario.Adv_A, dist_params, log_pi,
                  state_new)).
Proof.
  destruct (ppo_clip_on_policy_objective_is_advantage
              Scenario.hk_PRNGSequence Scenario.next Scenario.ppo
              tt tt 0%nat Scenario.batch_on_policy Scenario.Adv_A 0.2 ∅)
    as (loss & dist_params & state_new & _ & Hloss);
    [lra | reflexivity | reflexivity |].
  eexists loss, dist_params, _, state_new. exact Hloss.
Defined.

Lemma objective_with_negative_epsilon_scenario_A :
  -0.1 <= 0 ∧
  ∃ objective aux,
    PPOClip.objective_func Scenario.hk_PRNGSequence Scenario.next Scenario.ppo
      tt tt 0%nat Scenario.batch_A Scenario.Adv_A (-0.1)
    = inr (objective, aux) ∧
    ∀ o, objective !! 0%nat = Some o →
         o = Rmin (1 * exp (ln 1.5 - 0)) (1 * (1 + -0.1)).
Proof.
  split; [lra|].
  destruct (ppo_clip_objective_with_nonpositive_epsilon
              Scenario.hk_PRNGSequence Scenario.next Scenario.ppo
              tt tt 0%nat Scenario.batch_A Scenario.Adv_A (-0.1))
    as (objective & aux & Hobj & _ & Hentries);
    [lra | reflexivity | reflexivity |].
  exists objective, aux. split; [exact Hobj|].
  intros o Ho.
  exact (Hentries 0%nat 1 (ln 1.5) 0 o eq_refl eq_refl eq_refl Ho).
Defined.

Lemma single_advantage_scenario_A :
  ∃ objective aux,
    PPOClip.objective_func Scenario.hk_PRNGSequence Scenario.next Scenario.ppo
      tt tt 0%nat Scenario.batch_A [2] 0.2
    = inr (objective, aux) ∧
    length objective = 2%nat.
Proof.
  destruct (ppo_clip_single_advantage_is_broadcast
              Scenario.hk_PRNGSequence Scenario.next Scenario.ppo
              tt tt 0%nat Scenario.batch_A 2 0.2)
    as (objective & aux & Hobj & Hlen & _);
    [reflexivity |].
  exists objective, aux. split; [exact Hobj | exact Hlen].
Defined.

Lemma mismatched_advantage_scenario_A :
  PPOClip.grads_and_metrics_func Scenario.hk_PRNGSequence Scenario.next
    Scenario.jax_grad Scenario.magnitude_quantiles Scenario.ppo
    tt tt 0%nat Scenario.batch_A [1; 2; 3] 0.2 ∅
  = inl BroadcastError.
Proof.
  apply (ppo_clip_rejects_mismatched_advantage
           Scenario.hk_PRNGSequence Scenario.next
           Scenario.jax_grad Scenario.magnitude_quantiles Scenario.ppo
           tt tt 0%nat Scenario.batch_A [1; 2; 3] 0.2 ∅);
    [reflexivity | simpl; lia | simpl; lia | simpl; lia].
Defined.

Lemma metrics_report_both_losses_scenario_A :
  ∃ grads state_new metrics loss loss_bare,
    PPOClip.grads_and_metrics_func Scenario.hk_PRNGSequence Scenario.next
      Scenario.jax_grad Scenario.magnitude_quantiles Scenario.ppo
      tt tt 0%nat Scenario.batch_A Scenario.Adv_A 0.2 ∅
    = inr (grads, state_new, metrics) ∧
    metrics !! "PPOClip/loss" = Some loss ∧
    metrics !! "PPOClip/loss_bare" = Some loss_bare.
Proof.
  destruct (ppo_clip_metrics_report_both_losses
              Scenario.hk_PRNGSequence Scenario.next
              Scenario.jax_grad Scenario.magnitude_quantiles Scenario.ppo
              tt tt 0%nat Scenario.batch_A Scenario.Adv_A 0.2 ∅)
    as (grads & state_new & metrics & loss & loss_bare & _ & Hrun & H1 & H2);
    [reflexivity | reflexivity | intros r Hr; discriminate Hr |].
  exists grads, state_new, metrics, loss, loss_bare.
  split; [exact Hrun|]. split; [exact H1 | exact H2].
Defined.

Lemma regularizer_metrics_win_scenario :
  ∃ grads state_new metrics,
    PPOClip.grads_and_metrics_func Scenario.hk_PRNGSequence Scenario.next
      Scenario.jax_grad Scenario.magnitude_quantiles ScenarioMore.ppo_property
      tt tt 0%nat Scenario.batch_A Scenario.Adv_A 0.1 ∅
    = inr (grads, state_new, metrics) ∧
    metrics !! "PPOClip/loss" = Some 7.
Proof.
  apply (ppo_clip_regularizer_metrics_win
           Scenario.hk_PRNGSequence Scenario.next
           Scenario.jax_grad Scenario.magnitude_quantiles
           ScenarioMore.ppo_property ScenarioMore.property_regularizer
           tt tt 0%nat Scenario.batch_A Scenario.Adv_A 0.1 ∅ "PPOClip/loss" 7);
    [reflexivity | reflexivity | reflexivity | apply lookup_singleton_eq].
Defined.

Lemma hyperparams_without_regularizer_scenario :
  ∃ l h',
    PPOClip.hyperparams Scenario.ppo ∅ = (l, h') ∧
    h' !! l = Some {[ "epsilon" := 0.2 ]}.
Proof.
  destruct (hyperparams_without_regularizer_is_a_new_mapping Scenario.ppo ∅)
    as (l & h' & Hread & _ & Hl & _); [reflexivity|].
  exists l, h'. split; [exact Hread | exact Hl].
Defined.

Lemma hyperparams_of_property_regularizer_scenario :
  ∃ l h',
    PPOClip.hyperparams ScenarioMore.ppo_property ∅ = (l, h') ∧
    h' !! l = Some (<["epsilon" := 0.1]> {[ "beta" := 0.01 ]}) ∧
    ∃ l2 h2,
      PPOClip.regularizer_hyperparams ScenarioMore.property_regularizer h'
      = Some (l2, h2) ∧
      h2 !! l2 = Some {[ "beta" := 0.01 ]}.
Proof.
  destruct (hyperparams_of_property_regularizer_is_a_copy
              ScenarioMore.ppo_property ScenarioMore.property_regularizer
              {[ "beta" := 0.01 ]} ∅)
    as (l & h' & Hread & _ & Hl & _ & l2 & h2 & Hreg & _ & Hl2);
    [reflexivity | reflexivity |].
  exists l, h'. split; [exact Hread|]. split; [exact Hl|].
  exists l2, h2. split; [exact Hreg | exact Hl2].
Defined.

Lemma hyperparams_overwrites_stored_epsilon_scenario :
  ∃ h1 h2 d1,
    PPOClip.hyperparams Scenario.ppo_regularized
      {[ 1%positive := ScenarioMore.stored_hyperparams ]} = (1%positive, h1) ∧
    h1 !! 1%positive = Some d1 ∧
    d1 !! "epsilon" = Some 0.2 ∧
    d1 !! "beta" = Some 0.01 ∧
    PPOClip.hyperparams Scenario.ppo_regularized h1 = (1%positive, h2) ∧
    h2 !! 1%positive = Some d1.
Proof.
  destruct (hyperparams_overwrites_epsilon_and_is_idempotent
              Scenario.ppo_regularized (Scenario.zero_regularizer 1%positive)
              1%positive ScenarioMore.stored_hyperparams
              {[ 1%positive := ScenarioMore.stored_hyperparams ]})
    as (h1 & h2 & d1 & Hread1 & Hl1 & Heps & Hkeep & Hread2 & Hl2);
    [reflexivity | reflexivity | apply lookup_singleton_eq |].
  exists h1, h2, d1.
  split; [exact Hread1|]. split; [exact Hl1|]. split; [exact Heps|].
  split; [|split; [exact Hread2 | exact Hl2]].
  rewrite Hkeep by discriminate.
  unfold ScenarioMore.stored_hyperparams.
  rewrite lookup_insert_ne by discriminate. apply lookup_singleton_eq.
Defined.

Lemma is_max_scenario_B_values (m : R) : is_max [1; 5; 2] m → m = 5.
Proof. intros Hm. exact (is_max_unique _ _ _ Hm is_max_scenario_B). Qed.

Lemma scenario_B_target_plain :
  QLearning.target ScenarioMore.qlearning_plain tt tt 0%nat [1] [0.9]
    [[1; 5; 2]] = inr [5.5].
Proof.
  destruct (target_eq ScenarioMore.qlearning_plain tt tt 0%nat [1] [0.9]
              [[1; 5; 2]] (λ x, x) (λ x, x) [[1; 5; 2]] tt)
    as (ms & Hmax & Htarget); try reflexivity.
  { repeat constructor. discriminate. }
  apply Forall2_cons_inv_l in Hmax as (m & ms' & Hm & Hnil & ->).
  apply Forall2_nil_inv_l in Hnil as ->.
  rewrite (is_max_scenario_B_values _ Hm) in Htarget.
  rewrite Htarget. simpl. do 2 f_equal. lra.
Defined.

Lemma target_dominates_every_action_scenario_B :
  ∃ G,
    QLearning.target Scenario.qlearning tt tt 0%nat [1] [0.9] [[1; 5; 2]]
    = inr G ∧
    ∀ g, G !! 0%nat = Some g → 1 + 0.9 * 2 <= g.
Proof.
  destruct (qlearning_target_dominates_every_action
              Scenario.qlearning tt tt 0%nat [1] [0.9] [[1; 5; 2]]
              (λ x, x) (λ x, x) [[1; 5; 2]] tt)
    as (G & HG & _ & Hdom); try reflexivity; try (intros x y Hxy; exact Hxy).
  { repeat constructor. discriminate. }
  exists G. split; [exact HG|].
  intros g Hg.
  apply (Hdom 0%nat 1 0.9 [1; 5; 2] 2 g); try reflexivity; [lra| |exact Hg].
  do 2 apply list_elem_of_further. apply list_elem_of_here.
Defined.

Lemma target_ignores_action_order_scenario_B :
  QLearning.target Scenario.qlearning tt tt 0%nat [1] [0.9] [[1; 5; 2]]
  = QLearning.target Scenario.qlearning tt tt 0%nat [1] [0.9] [[2; 1; 5]].
Proof.
  apply (qlearning_target_ignores_action_order
           Scenario.qlearning tt tt 0%nat [[1; 5; 2]] tt tt 0%nat [[2; 1; 5]]
           [1] [0.9] [[1; 5; 2]] [[2; 1; 5]] tt tt);
    [reflexivity | reflexivity |].
  constructor; [|constructor].
  symmetry. apply (Permutation_cons_append [1; 5] 2).
Defined.

Lemma target_transform_round_trip_scenario :
  ∃ G,
    QLearning.target ScenarioMore.qlearning_scaled tt tt 0%nat [0] [1]
      [[1; 5; 2]] = inr G ∧
    ∀ g, G !! 0%nat = Some g → g = 5.
Proof.
  destruct (qlearning_target_transform_round_trip
              ScenarioMore.qlearning_scaled tt tt 0%nat [0] [1] [[1; 5; 2]]
              (λ x, 2 * x) (λ x, x / 2) [[1; 5; 2]] tt)
    as (G & HG & _ & Hmax); try reflexivity.
  { intros x. lra. }
  { repeat constructor. discriminate. }
  exists G. split; [exact HG|].
  intros g Hg. apply is_max_scenario_B_values.
  exact (Hmax 0%nat [1; 5; 2] g eq_refl eq_refl eq_refl Hg).
Defined.

Lemma target_is_monotone_scenario_B :
  ∃ G G',
    QLearning.target Scenario.qlearning tt tt 0%nat [1] [0.9] [[1; 5; 2]]
    = inr G ∧
    QLearning.target Scenario.qlearning tt tt 0%nat [1] [0.9] [[1; 6; 2]]
    = inr G' ∧
    Forall2 Rle G G'.
Proof.
  apply (qlearning_target_is_monotone_in_estimates
           Scenario.qlearning tt tt 0%nat [[1; 5; 2]] tt tt 0%nat [[1; 6; 2]]
           [1] [0.9] (λ x, x) (λ x, x) [[1; 5; 2]] [[1; 6; 2]] tt tt);
    try reflexivity; try (intros x y Hxy; exact Hxy).
  - repeat (constructor; [repeat (constructor; [lra|]); constructor|]).
    constructor.
  - repeat constructor. discriminate.
  - repeat constructor. lra.
Defined.

Lemma state_without_actions_scenario :
  QLearning.loss_func Scenario.hk_PRNGSequence Scenario.next
    Scenario.qlearning tt tt tt 0%nat ScenarioMore.batch_no_actions
  = inl ValueError ∧
  QLearning.td_error_func Scenario.hk_PRNGSequence Scenario.next
    Scenario.qlearning tt tt tt 0%nat ScenarioMore.batch_no_actions
  = inl ValueError.
Proof.
  destruct (qlearning_rejects_state_without_actions
              Scenario.hk_PRNGSequence Scenario.next
              Scenario.qlearning tt tt tt 0%nat ScenarioMore.batch_no_actions
              [[1; 2]; []] tt) as (_ & Hloss & Htd); [reflexivity | |].
  - apply list_elem_of_further, list_elem_of_here.
  - split; [exact Hloss | exact Htd].
Defined.

Lemma metrics_bias_and_rmse_scenario_B :
  ∃ grads state_new metrics,
    QLearning.grads_and_metrics_func Scenario.hk_PRNGSequence Scenario.next
      Scenario.jax_grad Scenario.magnitude_quantiles Scenario.qlearning
      tt tt tt 0%nat Scenario.batch_B
    = inr (grads, state_new, metrics) ∧
    metrics !! "QLearning/bias"
    = Some (jnp_mean (zip_with Rminus
              (QLearning.apply_func_type1 Scenario.q_discrete tt tt 0%nat
                 (TransitionBatch.S Scenario.batch_B)
                 (TransitionBatch.A Scenario.batch_B) true).1 [5.5])) ∧
    metrics !! "QLearning/rmse"
    = Some (sqrt (jnp_mean (map (λ x, x * x) (zip_with Rminus
              (QLearning.apply_func_type1 Scenario.q_discrete tt tt 0%nat
                 (TransitionBatch.S Scenario.batch_B)
                 (TransitionBatch.A Scenario.batch_B) true).1 [5.5])))).
Proof.
  destruct (qlearning_metrics_bias_and_rmse
              Scenario.hk_PRNGSequence Scenario.next
              Scenario.jax_grad Scenario.magnitude_quantiles Scenario.qlearning
              tt tt tt 0%nat Scenario.batch_B [5.5])
    as (grads & state_new & metrics & Hrun & Hbias & Hrmse & _);
    [exact scenario_B_target | discriminate | reflexivity | reflexivity |].
  exists grads, state_new, metrics.
  split; [exact Hrun|]. split; [exact Hbias | exact Hrmse].
Defined.

Lemma metrics_target_residual_vanishes_scenario_B :
  ∃ grads state_new metrics,
    QLearning.grads_and_metrics_func Scenario.hk_PRNGSequence Scenario.next
      Scenario.jax_grad Scenario.magnitude_quantiles
      ScenarioMore.qlearning_plain tt tt tt 0%nat Scenario.batch_B
    = inr (grads, state_new, metrics) ∧
    metrics !! "QLearning/bias_targ" = Some 0 ∧
    metrics !! "QLearning/rmse_targ" = Some 0.
Proof.
  apply (qlearning_metrics_target_residual_vanishes
           Scenario.hk_PRNGSequence Scenario.next
           Scenario.jax_grad Scenario.magnitude_quantiles
           ScenarioMore.qlearning_plain tt tt tt 0%nat Scenario.batch_B [5.5]);
    [exact scenario_B_target_plain | discriminate | reflexivity | reflexivity].
Defined.

Lemma mismatched_discounts_scenario :
  QLearning.td_error_func Scenario.hk_PRNGSequence Scenario.next
    Scenario.qlearning tt tt tt 0%nat ScenarioMore.batch_short_discounts
  = inl BroadcastError.
Proof.
  apply (qlearning_rejects_mismatched_discounts
           Scenario.hk_PRNGSequence Scenario.next
           Scenario.qlearning tt tt tt 0%nat
           ScenarioMore.batch_short_discounts
           [[1; 2]; [3; 4]; [5; 6]] tt);
    [reflexivity | | simpl; lia | simpl; lia | simpl; lia].
  repeat (constructor; [discriminate|]). constructor.
Defined.

(** * Facts about binary32 arithmetic *)

Lemma float32_broadcast_same_length (f : spec_float → spec_float → spec_float)
    (xs ys : list spec_float) :
  length xs = length ys → Float32.broadcast f xs ys = inr (zip_with f xs ys).
Proof. intros Hlen. unfold Float32.broadcast. by rewrite decide_True. Qed.

Lemma float32_compare_refl (x : spec_float) :
  Float32.is_nan x = false → SFcompare x x = Some Eq.
Proof.
  destruct x as [s|s| |s m e]; simpl; try done; intros _.
  - by destruct s.
  - destruct s; by rewrite Z.compare_refl, Pos.compare_cont_refl.
Qed.

Lemma float32_compare_antisym (x y : spec_float) :
  SFcompare y x = CompOpp <$> SFcompare x y.
Proof.
  destruct x as [sx|sx| |sx mx ex], y as [sy|sy| |sy my ey]; simpl;
    try done; try (by destruct sx); try (by destruct sy);
    try (by destruct sx, sy).
  f_equal. rewrite (Z.compare_antisym ex ey).
  destruct sx, sy; simpl; try done; destruct (ex ?= ey)%Z; simpl; try done;
    by rewrite ?CompOpp_involutive, Pos.compare_cont_antisym.
Qed.

Lemma float32_leb_refl (x : spec_float) :
  Float32.is_nan x = false → Float32.leb x x = true.
Proof.
  intros Hx. unfold Float32.leb, SFleb. by rewrite float32_compare_refl.
Qed.

Lemma float32_ltb_leb (x y : spec_float) :
  Float32.ltb x y = true → Float32.leb x y = true.
Proof.
  unfold Float32.ltb, Float32.leb, SFltb, SFleb.
  by destruct (SFcompare x y) as [[]|].
Qed.

Lemma float32_compare_is_Some (x y : spec_float) :
  Float32.is_nan x = false → Float32.is_nan y = false →
  is_Some (SFcompare x y).
Proof. destruct x, y; simpl; try done; by eexists. Qed.

Lemma float32_not_ltb_leb (x y : spec_float) :
  Float32.is_nan x = false → Float32.is_nan y = false →
  Float32.ltb y x = false → Float32.leb x y = true.
Proof.
  intros Hx Hy. unfold Float32.ltb, Float32.leb, SFltb, SFleb.
  rewrite (float32_compare_antisym y x).
  destruct (float32_compare_is_Some y x Hy Hx) as [c ->].
  by destruct c.
Qed.

Lemma float32_minimum_nan (x y : spec_float) :
  Float32.is_nan x || Float32.is_nan y = true → Float32.minimum x y = S754_nan.
Proof. intros H. unfold Float32.minimum. by rewrite H. Qed.

Lemma float32_minimum_le (x y : spec_float) :
  Float32.is_nan x = false → Float32.is_nan y = false →
  Float32.is_nan (Float32.minimum x y) = false ∧
  Float32.leb (Float32.minimum x y) x = true ∧
  Float32.leb (Float32.minimum x y) y = true.
Proof.
  intros Hx Hy. unfold Float32.minimum. rewrite Hx, Hy. simpl.
  destruct (Float32.ltb y x) eqn:Hlt.
  - split; [done|]. split; [by apply float32_ltb_leb | by apply float32_leb_refl].
  - split; [done|].
    split; [by apply float32_leb_refl | by apply float32_not_ltb_leb].
Qed.


Lemma float32_mul_zero_finite (gamma x : spec_float) :
  Float32.is_zero gamma = true → Float32.is_finite x = true →
  Float32.is_zero (Float32.mul gamma x) = true.
Proof. by destruct gamma, x. Qed.

Lemma float32_mul_zero_not_finite (gamma x : spec_float) :
  Float32.is_zero gamma = true → Float32.is_finite x = false →
  Float32.mul gamma x = S754_nan.
Proof. by destruct gamma, x. Qed.

Lemma float32_add_zero (r z : spec_float) :
  Float32.is_zero z = true →
  Float32.add r z = r ∨
  (Float32.is_zero r = true ∧ Float32.is_zero (Float32.add r z) = true).
Proof.
  destruct z as [sz| | |]; try done. intros _.
  destruct r as [sr|sr| |sr mr er]; simpl; auto.
  right. by destruct sr, sz.
Qed.

Lemma float32_add_nan (r : spec_float) : Float32.add r S754_nan = S754_nan.
Proof. by destruct r. Qed.

Lemma float32_jnp_max_axis1_total (rows : list (list spec_float)) :
  Forall (λ row, row ≠ []) rows →
  ∃ ms, Float32.jnp_max_axis1 rows = inr ms ∧ length ms = length rows.
Proof.
  induction 1 as [|row rows Hrow _ (ms & Hms & Hlen)]; simpl.
  - by exists [].
  - destruct row as [|x xs]; [done|]. simpl.
    rewrite Hms, M_bind_inr. eexists. split; [reflexivity|]. simpl. lia.
Qed.

(** * The Q-learning target over binary32 *)
Section QLearningBinary32.

Context {Params State Key Obs Act : Type}.

Local Abbreviation QLearning32 := (@Float32.QLearning Params State Key Obs Act).

Lemma float32_target_eq (self : QLearning32) params state rng Rn In S_next
    f f_inv Q_s_next state' :
  Float32.value_transform self = (f, f_inv) →
  Float32.apply_func_type2 (Float32.q_targ self) params state rng S_next false
  = (Q_s_next, state') →
  Forall (λ row, row ≠ []) Q_s_next →
  length Rn = length Q_s_next →
  length In = length Q_s_next →
  ∃ Q_sa_next,
    Float32.jnp_max_axis1 Q_s_next = inr Q_sa_next ∧
    length Q_sa_next = length Q_s_next ∧
    Float32.target self params state rng Rn In S_next
    = inr (map f (zip_with Float32.add Rn
                    (zip_with Float32.mul In (map f_inv Q_sa_next)))).
Proof.
  intros Hvt Happly Hrows HRn HIn.
  destruct (float32_jnp_max_axis1_total _ Hrows) as (ms & Hms & Hlen).
  exists ms. split; [done|]. split; [done|].
  unfold Float32.target. rewrite Hvt, Happly. simpl.
  rewrite Hms, M_bind_inr.
  unfold Float32.jnp_mul, Float32.jnp_add.
  rewrite (float32_broadcast_same_length Float32.mul)
    by (rewrite length_map; lia).
  rewrite M_bind_inr.
  rewrite (float32_broadcast_same_length Float32.add)
    by (rewrite length_zip_with, length_map; lia).
  by rewrite M_bind_inr.
Qed.

(** C4, as amended. On a transition with [In = 0] and a finite
    [f_inv(Q_sa_next)] the product [In · f_inv(Q_sa_next)] is exactly a zero
    and the target is [f(Rn)] ([f] of a zero when [Rn] is a zero); no case
    distinction is made and the call returns normally.  When
    [f_inv(Q_sa_next)] is an infinity or NaN the product, the sum and hence the
    argument of [f] are NaN. *)
Theorem qlearning_target_on_terminal_transitions_binary32
    (self : QLearning32) params state rng Rn In S_next f f_inv Q_s_next state' :
  Float32.value_transform self = (f, f_inv) →
  Float32.apply_func_type2 (Float32.q_targ self) params state rng S_next false
  = (Q_s_next, state') →
  Forall (λ row, row ≠ []) Q_s_next →
  length Rn = length Q_s_next →
  length In = length Q_s_next →
  ∃ Q_sa_next G,
    Float32.jnp_max_axis1 Q_s_next = inr Q_sa_next ∧
    Float32.target self params state rng Rn In S_next = inr G ∧
    length G = length Rn ∧
    ∀ i r gamma q,
      Rn !! i = Some r → In !! i = Some gamma →
      Float32.is_zero gamma = true → Q_sa_next !! i = Some q →
      (Float32.is_finite (f_inv q) = true →
       ∃ r', G !! i = Some (f r') ∧
             (r' = r ∨ (Float32.is_zero r = true ∧ Float32.is_zero r' = true))) ∧
      (Float32.is_finite (f_inv q) = false → G !! i = Some (f S754_nan)).
Proof.
  intros Hvt Happly Hrows HRn HIn.
  destruct (float32_target_eq self params state rng Rn In S_next f f_inv
              Q_s_next state' Hvt Happly Hrows HRn HIn)
    as (ms & Hms & Hlen & Htarget).
  exists ms. eexists. split; [done|]. split; [exact Htarget|].
  split; [rewrite length_map, length_zip_with, length_zip_with, length_map; lia|].
  intros i r gamma q Hr Hgamma Hzero Hq.
  assert (Hentry : ∀ b, Float32.mul gamma (f_inv q) = b →
            map f (zip_with Float32.add Rn
                     (zip_with Float32.mul In (map f_inv ms))) !! i
            = Some (f (Float32.add r b))).
  { intros b <-. rewrite list_lookup_fmap.
    assert (Hb : zip_with Float32.mul In (map f_inv ms) !! i
                 = Some (Float32.mul gamma (f_inv q))).
    { apply lookup_zip_with_Some. exists gamma, (f_inv q).
      split; [done|]. split; [done|]. by rewrite list_lookup_fmap, Hq. }
    assert (Hs : zip_with Float32.add Rn
                   (zip_with Float32.mul In (map f_inv ms)) !! i
                 = Some (Float32.add r (Float32.mul gamma (f_inv q)))).
    { apply lookup_zip_with_Some. by eexists _, _. }
    by rewrite Hs. }
  split; intros Hfin.
  - exists (Float32.add r (Float32.mul gamma (f_inv q))).
    split; [by apply Hentry|].
    apply float32_add_zero. by apply float32_mul_zero_finite.
  - rewrite (Hentry S754_nan) by by apply float32_mul_zero_not_finite.
    by rewrite float32_add_nan.
Qed.

End QLearningBinary32.

Lemma qlearning_target_terminal_scenario_binary32 :
  ∃ G,
    Float32.target Float32.qlearning_table tt tt 0%nat
      [Float32.one] [Float32.zero]
      [[Float32.one; Float32.of_Z 5; Float32.of_Z 2]]
    = inr G ∧
    G !! 0%nat = Some Float32.one.
Proof.
  destruct (qlearning_target_on_terminal_transitions_binary32
              Float32.qlearning_table tt tt 0%nat
              [Float32.one] [Float32.zero]
              [[Float32.one; Float32.of_Z 5; Float32.of_Z 2]]
              (λ x, x) (λ x, x)
              [[Float32.one; Float32.of_Z 5; Float32.of_Z 2]] tt)
    as (ms & G & Hms & HG & _ & Hentries); try reflexivity.
  { repeat constructor. discriminate. }
  exists G. split; [exact HG|].
  destruct ms as [|q ms]; [discriminate Hms|].
  destruct (Hentries 0%nat Float32.one Float32.zero q) as [Hfinite _];
    try reflexivity.
  destruct Hfinite as (r' & Hr' & [-> | [Hzero _]]).
  - injection Hms as <- _. reflexivity.
  - exact Hr'.
  - discriminate Hzero.
Defined.

(** C4 as first stated fails on a terminal transition whose bootstrap
    estimate is infinite: with [In = 0], [Rn = 1] and the identity transform
    the target is NaN, not [f(Rn) = 1]. *)
Lemma qlearning_target_terminal_with_infinite_estimate :
  ∃ G,
    Float32.is_zero Float32.zero = true ∧
    Float32.target Float32.qlearning_table tt tt 0%nat
      [Float32.one] [Float32.zero]
      [[Float32.one; Float32.infinity; Float32.of_Z 2]]
    = inr G ∧
    G = [S754_nan] ∧
    G ≠ map (Float32.value_transform Float32.qlearning_table).1 [Float32.one].
Proof.
  exists [S754_nan]. split; [reflexivity|]. split; [vm_compute; reflexivity|].
  split; [reflexivity|]. vm_compute. intros Heq. discriminate Heq.
Qed.


(** * The PPO-clip objective over binary32 *)
Section PPOClipBinary32.

Context {Params State Key PRNGSequence Obs Act DistParams Xa : Type}.
Variable hk_PRNGSequence : Key → PRNGSequence.
Variable next : PRNGSequence → Key * PRNGSequence.
Variable exp32 : spec_float → spec_float.

Local Abbreviation Policy32 :=
  (@Float32.Policy Params State Key Obs Act DistParams Xa).
Local Abbreviation objective_func32 :=
  (Float32.objective_func hk_PRNGSequence next exp32).

(** The entry of the objective for one advantage and one ratio. *)
Local Abbreviation entry32 epsilon a rho :=
  (Float32.minimum (Float32.mul a rho)
     (Float32.mul a
        (Float32.clip rho (Float32.sub (Float32.of_Z 1) epsilon)
           (Float32.add (Float32.of_Z 1) epsilon)))).

Lemma float32_objective_func_eq (pi : Policy32) params state rng S A logP Adv
    epsilon :
  let forward :=
    Float32.apply_func pi params state (first_key hk_PRNGSequence next rng)
      S true in
  let log_pi :=
    Float32.proba_dist_log_proba pi forward.1
      (Float32.action_preprocessor_func pi params
         (second_key hk_PRNGSequence next rng) A) in
  length log_pi = length logP →
  length Adv = length logP →
  objective_func32 pi params state rng S A logP Adv epsilon
  = inr (zip_with (λ a rho, entry32 epsilon a rho) Adv
           (map exp32 (zip_with Float32.sub log_pi logP)),
         (forward.1, log_pi, forward.2)).
Proof.
  intros forward log_pi Hpi HAdv.
  unfold Float32.objective_func, Float32.clipped_objective.
  subst log_pi forward. unfold first_key, second_key in *.
  destruct (next (hk_PRNGSequence rng)) as [k1 rngs1]; simpl in *.
  destruct (Float32.apply_func _ _ _ _ _ _) as [dist_params state_new];
    simpl in *.
  destruct (next rngs1) as [k2 rngs2]; simpl in *.
  set (log_pi := Float32.proba_dist_log_proba _ _ _) in *.
  unfold Float32.jnp_sub, Float32.jnp_mul, Float32.jnp_minimum,
    Float32.jnp_clip.
  rewrite (float32_broadcast_same_length Float32.sub) by done.
  rewrite M_bind_inr.
  rewrite !(float32_broadcast_same_length Float32.mul)
    by (rewrite ?length_map, length_zip_with; lia).
  rewrite !M_bind_inr.
  rewrite (float32_broadcast_same_length Float32.minimum)
    by (rewrite !length_zip_with, !length_map, length_zip_with; lia).
  rewrite M_bind_inr. simpl. do 2 f_equal.
  generalize (map exp32 (zip_with Float32.sub log_pi logP)) as ratio.
  clear. induction Adv as [|a Adv IH]; intros [|rho ratio]; simpl; try done.
  f_equal. apply IH.
Qed.

Lemma float32_objective_lookup (epsilon : spec_float)
    (Adv log_pi logP : list spec_float) i a lp lP o :
  Adv !! i = Some a → log_pi !! i = Some lp → logP !! i = Some lP →
  zip_with (λ a rho, entry32 epsilon a rho) Adv
    (map exp32 (zip_with Float32.sub log_pi logP)) !! i = Some o →
  o = entry32 epsilon a (exp32 (Float32.sub lp lP)).
Proof.
  intros Ha Hlp HlP Ho.
  apply lookup_zip_with_Some in Ho as (a' & rho & -> & Ha' & Hrho).
  apply list_lookup_fmap_Some_1 in Hrho as (d & -> & Hd).
  apply lookup_zip_with_Some in Hd as (lp' & lP' & -> & Hlp' & HlP').
  congruence.
Qed.

(** X1. In binary32, each entry of the objective is at most both products,
    [Adv·ρ] and [Adv·clip(ρ, 1−ε, 1+ε)], whenever neither product is NaN, for
    every [epsilon] and every sign of the advantage; when a product is NaN
    (as for [Adv = 0] with an overflowed ratio) the entry is NaN. *)
Theorem ppo_clip_objective_at_most_both_products_binary32
    (pi : Policy32) params state rng S A logP Adv epsilon :
  let forward :=
    Float32.apply_func pi params state (first_key hk_PRNGSequence next rng)
      S true in
  let log_pi :=
    Float32.proba_dist_log_proba pi forward.1
      (Float32.action_preprocessor_func pi params
         (second_key hk_PRNGSequence next rng) A) in
  length log_pi = length logP →
  length Adv = length logP →
  ∃ objective aux,
    objective_func32 pi params state rng S A logP Adv epsilon
    = inr (objective, aux) ∧
    length objective = length Adv ∧
    ∀ i a lp lP o,
      Adv !! i = Some a → log_pi !! i = Some lp → logP !! i = Some lP →
      objective !! i = Some o →
      let rho := exp32 (Float32.sub lp lP) in
      let bare := Float32.mul a rho in
      let clipped :=
        Float32.mul a
          (Float32.clip rho (Float32.sub (Float32.of_Z 1) epsilon)
             (Float32.add (Float32.of_Z 1) epsilon)) in
      (Float32.is_nan bare = false → Float32.is_nan clipped = false →
       Float32.is_nan o = false ∧
       Float32.leb o bare = true ∧ Float32.leb o clipped = true) ∧
      (Float32.is_nan bare || Float32.is_nan clipped = true → o = S754_nan).
Proof.
  intros forward log_pi Hpi HAdv.
  eexists _, _. split; [by apply float32_objective_func_eq|].
  fold forward log_pi.
  split; [rewrite length_zip_with, length_map, length_zip_with; lia|].
  intros i a lp lP o Ha Hlp HlP Ho rho bare clipped.
  rewrite (float32_objective_lookup _ _ _ _ _ _ _ _ _ Ha Hlp HlP Ho).
  fold rho bare clipped. split.
  - intros Hb Hc. by apply float32_minimum_le.
  - apply float32_minimum_nan.
Qed.


End PPOClipBinary32.

Lemma objective_at_most_both_products_scenario_binary32 :
  ∃ objective aux,
    Float32.objective_func (λ rng : nat, rng) (λ rngs : nat, (rngs, S rngs))
      Float32.exp_at_zero Float32.policy_table tt tt 0%nat
      [Float32.zero] tt [Float32.zero] [Float32.adv_089] Float32.eps_02
    = inr (objective, aux) ∧
    ∀ o, objective !! 0%nat = Some o →
         Float32.leb o (Float32.mul Float32.adv_089 Float32.one) = true.
Proof.
  destruct (ppo_clip_objective_at_most_both_products_binary32
              (λ rng : nat, rng) (λ rngs : nat, (rngs, S rngs))
              Float32.exp_at_zero Float32.policy_table tt tt 0%nat
              [Float32.zero] tt [Float32.zero] [Float32.adv_089]
              Float32.eps_02)
    as (objective & aux & Hobj & _ & Hentries); [reflexivity | reflexivity |].
  exists objective, aux. split; [exact Hobj|].
  intros o Ho.
  destruct (Hentries 0%nat Float32.adv_089 Float32.zero Float32.zero o
              eq_refl eq_refl eq_refl Ho) as [Hle _].
  destruct Hle as (_ & Hbare & _); [reflexivity | reflexivity |].
  exact Hbare.
Defined.

